(** * Chunked playback position tracking of the studio audio player

    A shallow embedding of the chunk-sequencing and position-tracking logic of
    [static/js/studio/player.js]: [loadEpisode], [calculateEpisodeTime],
    [loadChunk], [onTimeUpdate], [onEnded], the [fs-scrubber] input handler
    of [initFullscreenPlayer], [savePosition], [skip], [prevChunk] and
    [nextChunk].  Line numbers refer to that file.

    Modelling conventions.
    - JavaScript numbers that carry times and percentages are exact rationals
      ([Q]); rounding of IEEE doubles is not modelled, so equalities between
      times are stated with [==] ([Qeq]).  Chunk indices are integers ([Z]).
    - The module-level variables of player.js ([audio], [currentEpisode],
      [currentChunkIndex], [chunks], [totalEpisodeDuration],
      [currentEpisodeTime]) are the fields of the record [Player]; every
      function takes the record and returns the updated one.
    - Calls that leave the module (toast, api.savePlayback, addToHistory,
      audio.load, audio.play) are recorded, in program order, in a list of
      [Effect]s returned next to the state.  DOM updates are left out.
    - A call that raises an exception nothing catches ends the handler it
      is in: the state and the effects are those reached before the call
      ([Settled] for the [async] [loadChunk], [Completion] for [onEnded]).
    - The HTMLMediaElement is the record [Audio].  [audio.load()] is taken to
      complete at once: the element then sits at position 0 and reports the
      duration the backend gave for the chunk ([loadMedia]).  Assigning
      [audio.currentTime] seeks, and a media element clamps the requested
      position to [0, duration] ([seekMedia]). *)

From Stdlib Require Import ZArith QArith Qminmax Qround Qabs Lqa Lia.
From Stdlib Require Import List String Bool Sorted DecimalString.
Import ListNotations.
Open Scope Q_scope.

(** ** JavaScript idioms *)

(** [x || 0] for a number that may be [null]/[undefined]. *)
Definition orZero (x : option Q) : Q :=
  match x with
  | Some q => q
  | None => 0
  end.

(** [!x] for a number: only zero is falsy. *)
Definition isZero (x : Q) : bool := Qeq_bool x 0.

(** Truthiness of a number that may be [null]/[undefined]. *)
Definition truthy (x : option Q) : bool :=
  match x with
  | Some q => negb (isZero q)
  | None => false
  end.

(** [a > b] on numbers. *)
Definition Qgtb (a b : Q) : bool := negb (Qle_bool a b).

(** [Array.prototype.findIndex]: position of the first match, [-1] if none. *)
Fixpoint findIndexFrom {A : Type} (f : A -> bool) (l : list A) (i : Z) : Z :=
  match l with
  | [] => (-1)%Z
  | x :: rest => if f x then i else findIndexFrom f rest (i + 1)%Z
  end.

Definition findIndex {A : Type} (f : A -> bool) (l : list A) : Z :=
  findIndexFrom f l 0%Z.

(** [arr[i]] for an integer [i]; [None] stands for [undefined]. *)
Definition at_index {A : Type} (l : list A) (i : Z) : option A :=
  if (i <? 0)%Z then None else nth_error l (Z.to_nat i).

(** ** Data model *)

Record Chunk : Type := mkChunk {
  chunk_index : Z;
  status : string;
  duration_secs : option Q;
  text : string
}.

Module Episode.
Record t : Type := mk {
  id : string;
  title : string;
  chunks : option (list Chunk);
  current_chunk_index : option Z;
  position_secs : option Q
}.
End Episode.

(** Body of the request issued by [api.savePlayback]. *)
Module Playback.
Record t : Type := mk {
  current_chunk_index : Z;
  position_secs : Q;
  percent_listened : Q
}.
End Playback.

(** The media element as far as the player reads and writes it. *)
Record Audio : Type := mkAudio {
  currentTime : Q;
  duration : Q
}.

Definition seekMedia (a : Audio) (t : Q) : Audio :=
  {| currentTime := Qmax 0 (Qmin (duration a) t); duration := duration a |}.

(** The element after [audio.src = ...; audio.load()] (lines 336-337) has
    loaded the chunk's file.  The player never sets the element's duration:
    the element reports the length of the file, which is taken to be the
    [duration_secs] the backend stored for the chunk.  For a chunk whose
    [duration_secs] is missing the length of the file is not known here, and
    the value [0] below is a placeholder: properties that load a chunk and
    then depend on the element's duration are stated for episodes whose
    durations are all known ([knownDurations]). *)
Definition loadMedia (c : Chunk) : Audio :=
  {| currentTime := 0; duration := orZero (duration_secs c) |}.

Inductive Effect : Type :=
| Toast (message kind : string)
| MediaLoad (episode_id : string) (chunkIndex : Z)
| MediaPlay
| SavePlayback (episode_id : string) (body : Playback.t)
| AddToHistory (episode_id : string) (progress : Q).

(** Module-level state of player.js, lines 13-18. *)
Record Player : Type := mkPlayer {
  audio : option Audio;
  currentEpisode : option Episode.t;
  currentChunkIndex : Z;
  chunks : list Chunk;
  totalEpisodeDuration : Q;
  currentEpisodeTime : Q
}.

Definition initial : Player :=
  {| audio := None; currentEpisode := None; currentChunkIndex := 0%Z;
     chunks := []; totalEpisodeDuration := 0; currentEpisodeTime := 0 |}.

Definition set_audio (a : option Audio) (p : Player) : Player :=
  mkPlayer a (currentEpisode p) (currentChunkIndex p) (chunks p)
           (totalEpisodeDuration p) (currentEpisodeTime p).

Definition set_currentEpisode (e : option Episode.t) (p : Player) : Player :=
  mkPlayer (audio p) e (currentChunkIndex p) (chunks p)
           (totalEpisodeDuration p) (currentEpisodeTime p).

Definition set_currentChunkIndex (i : Z) (p : Player) : Player :=
  mkPlayer (audio p) (currentEpisode p) i (chunks p)
           (totalEpisodeDuration p) (currentEpisodeTime p).

Definition set_chunks (cs : list Chunk) (p : Player) : Player :=
  mkPlayer (audio p) (currentEpisode p) (currentChunkIndex p) cs
           (totalEpisodeDuration p) (currentEpisodeTime p).

Definition set_totalEpisodeDuration (d : Q) (p : Player) : Player :=
  mkPlayer (audio p) (currentEpisode p) (currentChunkIndex p) (chunks p)
           d (currentEpisodeTime p).

Definition set_currentEpisodeTime (t : Q) (p : Player) : Player :=
  mkPlayer (audio p) (currentEpisode p) (currentChunkIndex p) (chunks p)
           (totalEpisodeDuration p) t.

(** ** Operations *)

Definition isReady (c : Chunk) : bool := String.eqb (status c) "ready".

Definition hasIndex (i : Z) (c : Chunk) : bool := (chunk_index c =? i)%Z.

(** [chunks.find(c => c.chunk_index === i)?.duration_secs || 0] *)
Definition durationOf (cs : list Chunk) (i : Z) : Q :=
  match find (hasIndex i) cs with
  | Some c => orZero (duration_secs c)
  | None => 0
  end.

(** [chunks.reduce((sum, c) => sum + (c.duration_secs || 0), 0)], line 37. *)
Definition sumDurations (cs : list Chunk) : Q :=
  fold_left (fun sum c => sum + orZero (duration_secs c)) cs 0.

(** player.js, lines 85-93. *)
Definition calculateEpisodeTime (cs : list Chunk) (chunkIndex : Z) : Q :=
  fold_left
    (fun time chunk =>
       if (chunk_index chunk <? chunkIndex)%Z
       then time + orZero (duration_secs chunk)
       else time)
    cs 0.

(** Outcome of the promise returned by an [async] function. *)
Inductive Settled : Type := Fulfilled | Rejected.

(** player.js, lines 278-352.  Reading [currentEpisode.id] throws when no
    episode is current; inside an [async] function that rejects the promise
    after [currentChunkIndex] has been assigned. *)
Definition loadChunk (chunkIndex : Z) (p : Player)
  : Player * list Effect * Settled :=
  let p1 := set_currentChunkIndex chunkIndex p in
  match currentEpisode p1 with
  | None => (p1, [], Rejected)
  | Some ep =>
      match find (hasIndex chunkIndex) (chunks p1) with
      | None => (p1, [], Fulfilled)
      | Some chunk =>
          (set_audio (Some (loadMedia chunk)) p1,
           [MediaLoad (Episode.id ep) chunkIndex],
           Fulfilled)
      end
  end.

(** [audio.play().catch(() => {})]; throws when [audio] is still [null]. *)
Definition playAudio (p : Player) : list Effect :=
  match audio p with
  | Some _ => [MediaPlay]
  | None => []
  end.

(** player.js, lines 1053-1073. *)
Definition savePosition (forcePct : option Q) (p : Player) : list Effect :=
  match currentEpisode p with
  | None => []
  | Some ep =>
      let idx := findIndex (hasIndex (currentChunkIndex p)) (chunks p) in
      let totalChunks := Z.of_nat (List.length (chunks p)) in
      let pct :=
        match forcePct with
        | Some f => f
        | None =>
            let chunkPct :=
              match audio p with
              | Some a =>
                  if isZero (duration a) then 0
                  else currentTime a / duration a
              | None => 0
              end in
            if (totalChunks >? 0)%Z
            then ((inject_Z idx + chunkPct) / inject_Z totalChunks) * 100
            else 0
        end in
      [SavePlayback (Episode.id ep)
         {| Playback.current_chunk_index := currentChunkIndex p;
            Playback.position_secs :=
              match audio p with
              | Some a => currentTime a
              | None => 0
              end;
            Playback.percent_listened := Qmin 100 pct |}]
  end.

(** player.js, lines 25-83.  [fetched] is the outcome of
    [await api.getEpisode(episodeId)]: the episode, or the message of the
    error caught by the surrounding [try]. *)
Definition loadEpisode (fetched : string + Episode.t) (startChunk : option Z)
    (p : Player) : Player * list Effect :=
  match fetched with
  | inl message => (p, [Toast ("Player error: " ++ message) "error"])
  | inr episode =>
      let p := set_currentEpisode (Some episode) p in
      let p := set_chunks
                 (filter isReady
                    (match Episode.chunks episode with
                     | Some cs => cs
                     | None => []
                     end)) p in
      match chunks p with
      | [] => (p, [Toast "No ready chunks to play" "error"])
      | first :: _ =>
          let p := set_totalEpisodeDuration (sumDurations (chunks p)) p in
          let p :=
            match startChunk with
            | Some s => set_currentChunkIndex s p
            | None =>
                match Episode.current_chunk_index episode with
                | Some i => set_currentChunkIndex i p
                | None => set_currentChunkIndex 0%Z p
                end
            end in
          let validIdx :=
            findIndex (hasIndex (currentChunkIndex p)) (chunks p) in
          let p :=
            if (validIdx <? 0)%Z
            then set_currentChunkIndex (chunk_index first) p
            else p in
          let restore :=
            match startChunk with
            | None => truthy (Episode.position_secs episode)
            | Some _ => false
            end in
          let p :=
            set_currentEpisodeTime
              (calculateEpisodeTime (chunks p) (currentChunkIndex p)) p in
          let p :=
            if restore
            then set_currentEpisodeTime
                   ((currentEpisodeTime p
                     - durationOf (chunks p) (currentChunkIndex p))
                    + orZero (Episode.position_secs episode)) p
            else p in
          let '(p, loaded, _) := loadChunk (currentChunkIndex p) p in
          let played := playAudio p in
          let p :=
            if restore
            then match audio p with
                 | Some a =>
                     set_audio
                       (Some (seekMedia a
                                (orZero (Episode.position_secs episode)))) p
                 | None => p
                 end
            else p in
          (p, loaded ++ played)
      end
  end.

(** player.js, lines 354-395: the recomputation of the episode-level time. *)
Definition onTimeUpdate (p : Player) : Player :=
  match audio p with
  | None => p
  | Some a =>
      if isZero (duration a) then p
      else
        let chunkStartTime :=
          calculateEpisodeTime (chunks p) (currentChunkIndex p) in
        set_currentEpisodeTime (chunkStartTime + currentTime a) p
  end.

(** How a synchronous handler ends: it returns, or the call named by
    [Thrown] raises an exception that nothing catches and the rest of the
    handler does not run. *)
Inductive Completion : Type :=
| Returned
| Thrown (call : string).

(** player.js, lines 417-439.  With an episode loaded the handler first calls
    [addToHistory] (lines 1016-1039), which stores the updated history with
    [localStorage.setItem] (line 1037) and then calls [state.emit] (line 1038).
    state.js exports [get], [set], [on] and [getAll] only, so [state.emit] is
    [undefined] and the call raises a TypeError; neither [addToHistory] nor
    [onEnded] has a [try], so the handler stops there, before line 424.  The
    branches below line 423 run only when no episode is loaded; there
    [audio.play()] (line 428) raises when the element has not been created. *)
Definition onEnded (p : Player) : Player * list Effect * Completion :=
  match currentEpisode p with
  | Some ep => (p, [AddToHistory (Episode.id ep) 100], Thrown "state.emit")
  | None =>
      let idx := findIndex (hasIndex (currentChunkIndex p)) (chunks p) in
      match
        (if (0 <=? idx)%Z && (idx <? Z.of_nat (List.length (chunks p)) - 1)%Z
         then at_index (chunks p) (idx + 1)%Z
         else None)
      with
      | Some next =>
          let '(p1, loaded, _) := loadChunk (chunk_index next) p in
          (p1, loaded ++ playAudio p1,
           match audio p1 with
           | Some _ => Returned
           | None => Thrown "audio.play"
           end)
      | None =>
          (p, savePosition (Some 100) p
                ++ [Toast "Episode complete!" "success"], Returned)
      end
  end.

(** player.js, lines 1107-1114. *)
Definition nextChunk (p : Player) : Player * list Effect :=
  let idx := findIndex (hasIndex (currentChunkIndex p)) (chunks p) in
  match
    (if (0 <=? idx)%Z && (idx <? Z.of_nat (List.length (chunks p)) - 1)%Z
     then at_index (chunks p) (idx + 1)%Z
     else None)
  with
  | Some next =>
      let saved := savePosition None p in
      let '(p1, loaded, _) := loadChunk (chunk_index next) p in
      (p1, saved ++ loaded ++ playAudio p1)
  | None => (p, [])
  end.

(** player.js, lines 1098-1105. *)
Definition prevChunk (p : Player) : Player * list Effect :=
  let idx := findIndex (hasIndex (currentChunkIndex p)) (chunks p) in
  match (if (0 <? idx)%Z then at_index (chunks p) (idx - 1)%Z else None) with
  | Some prev =>
      let saved := savePosition None p in
      let '(p1, loaded, _) := loadChunk (chunk_index prev) p in
      (p1, saved ++ loaded ++ playAudio p1)
  | None => (p, [])
  end.

(** player.js, lines 1093-1096. *)
Definition skip (secs : Q) (p : Player) : Player :=
  match audio p with
  | None => p
  | Some a =>
      set_audio
        (Some (seekMedia a
                 (Qmax 0 (Qmin (duration a) (currentTime a + secs))))) p
  end.

(** The chunk search of the [fs-scrubber] handler, lines 536-545: the first
    chunk whose running end time exceeds [targetTime]; [targetChunk] (the
    caller passes [chunks[0]]) when the loop ends without a [break]. *)
Fixpoint findTargetChunk (rest : list Chunk) (timeAccum targetTime : Q)
    (targetChunk : Chunk) : Chunk :=
  match rest with
  | [] => targetChunk
  | chunk :: rest' =>
      let chunkDur := orZero (duration_secs chunk) in
      if Qgtb (timeAccum + chunkDur) targetTime
      then chunk
      else findTargetChunk rest' (timeAccum + chunkDur) targetTime targetChunk
  end.

(** Lines 535-559 of the [fs-scrubber] handler: the episode-level seek to
    [targetTime].  With no chunk, [chunks[0].chunk_index] throws and the
    handler stops without a change. *)
Definition seekEpisodeTime (targetTime : Q) (p : Player)
  : Player * list Effect :=
  match chunks p with
  | [] => (p, [])
  | first :: _ =>
      let targetChunk := findTargetChunk (chunks p) 0 targetTime first in
      match
        (if (chunk_index targetChunk =? currentChunkIndex p)%Z
         then audio p else None)
      with
      | Some a =>
          let chunkStartTime :=
            calculateEpisodeTime (chunks p) (currentChunkIndex p) in
          (set_audio (Some (seekMedia a (targetTime - chunkStartTime))) p, [])
      | None =>
          let '(p1, loaded, settled) :=
            loadChunk (chunk_index targetChunk) p in
          match settled with
          | Rejected => (p1, loaded)
          | Fulfilled =>
              let chunkStartTime :=
                calculateEpisodeTime (chunks p1) (chunk_index targetChunk) in
              match audio p1 with
              | Some a =>
                  (set_audio
                     (Some (seekMedia a (targetTime - chunkStartTime))) p1,
                   loaded)
              | None => (p1, loaded)
              end
          end
      end
  end.

(** The [fs-scrubber] input handler, lines 530-562; [pct] is the parsed
    value of the range input. *)
Definition fsScrubberInput (pct : Q) (p : Player) : Player * list Effect :=
  if isZero (totalEpisodeDuration p) || Nat.eqb (List.length (chunks p)) 0
  then (p, [])
  else seekEpisodeTime ((pct / 100) * totalEpisodeDuration p) p.

(** ** Scenario of the specification: three ready chunks of 100, 50, 30 s *)

Definition readyChunk (i : Z) (d : Q) : Chunk :=
  {| chunk_index := i; status := "ready"; duration_secs := Some d;
     text := "" |}.

Definition scenarioChunks : list Chunk :=
  [readyChunk 0 100; readyChunk 1 50; readyChunk 2 30].

Definition scenarioEpisode (cur : option Z) (pos : option Q) : Episode.t :=
  {| Episode.id := "ep"; Episode.title := "Scenario";
     Episode.chunks := Some scenarioChunks;
     Episode.current_chunk_index := cur;
     Episode.position_secs := pos |}.

(** The player after the scenario episode was opened from the start. *)
Definition scenarioPlayer : Player :=
  fst (loadEpisode (inr (scenarioEpisode None None)) None initial).

(** ** Well-formed tracker states *)

Definition chunkDur (c : Chunk) : Q := orZero (duration_secs c).

Definition nonnegDurations (cs : list Chunk) : Prop :=
  Forall (fun c => 0 <= chunkDur c) cs.

(** Every duration is known, that is, present and not zero. *)
Definition knownDurations (cs : list Chunk) : Prop :=
  Forall (fun c => 0 < chunkDur c) cs.

Definition ascending (cs : list Chunk) : Prop :=
  StronglySorted (fun a b => (chunk_index a < chunk_index b)%Z) cs.

(** The media element exists and plays the cursor's chunk: it reports that
    chunk's duration and its position lies inside the chunk. *)
Definition mediaSynced (p : Player) : Prop :=
  match audio p with
  | None => False
  | Some a =>
      duration a == durationOf (chunks p) (currentChunkIndex p)
      /\ 0 <= currentTime a <= duration a
  end.

(** What [loadEpisode] leaves behind for an episode with ascending ready
    chunks, and what the claims call a loaded ready-chunk sequence. *)
Record Loaded (p : Player) : Prop := mkLoaded {
  loaded_episode : currentEpisode p <> None;
  loaded_ascending : ascending (chunks p);
  loaded_durations : nonnegDurations (chunks p);
  loaded_total : totalEpisodeDuration p == sumDurations (chunks p);
  loaded_cursor :
    exists c, In c (chunks p) /\ chunk_index c = currentChunkIndex p;
  loaded_media : mediaSynced p
}.

(** The cursor as the specification reads it: chunk index and offset. *)
Definition cursorOffset (p : Player) : Q :=
  match audio p with
  | Some a => currentTime a
  | None => 0
  end.

(** [currentEpisodeTime()] of the specification: the value [onTimeUpdate]
    stores, lines 359-360. *)
Definition episodeTimeOf (p : Player) : Q :=
  calculateEpisodeTime (chunks p) (currentChunkIndex p) + cursorOffset p.

(** [clamp(t, lo, hi)] *)
Definition clamp (t lo hi : Q) : Q := Qmax lo (Qmin hi t).

(** Recursive readings of the two folds. *)
Fixpoint totalOf (cs : list Chunk) : Q :=
  match cs with
  | [] => 0
  | c :: rest => chunkDur c + totalOf rest
  end.

Fixpoint prefixTime (i : Z) (cs : list Chunk) : Q :=
  match cs with
  | [] => 0
  | c :: rest =>
      (if (chunk_index c <? i)%Z then chunkDur c else 0) + prefixTime i rest
  end.

(** ** Notions used to state the claims *)

(** [episode.chunks || []] filtered to the ready chunks, line 29. *)
Definition readyChunks (episode : Episode.t) : list Chunk :=
  filter isReady
    (match Episode.chunks episode with
     | Some cs => cs
     | None => []
     end).

(** The chunk a call of [loadEpisode] asks for, lines 40-46: the explicit
    start chunk, else the persisted chunk index, else 0. *)
Definition requestedChunk (episode : Episode.t) (startChunk : option Z) : Z :=
  match startChunk with
  | Some s => s
  | None =>
      match Episode.current_chunk_index episode with
      | Some i => i
      | None => 0%Z
      end
  end.

(** Whether the persisted in-chunk position is restored, lines 54 and 69. *)
Definition restoresPosition (episode : Episode.t) (startChunk : option Z)
  : bool :=
  match startChunk with
  | None => truthy (Episode.position_secs episode)
  | Some _ => false
  end.

(** The offset a call of [loadEpisode] asks for: the persisted position when
    it is restored, else the start of the chunk. *)
Definition requestedOffset (episode : Episode.t) (startChunk : option Z) : Q :=
  if restoresPosition episode startChunk
  then orZero (Episode.position_secs episode)
  else 0.

(** The chunk index [loadEpisode] settles on, lines 48-50. *)
Definition resolvedChunk (ready : list Chunk) (first : Chunk) (requested : Z)
  : Z :=
  if (findIndex (hasIndex requested) ready <? 0)%Z
  then chunk_index first
  else requested.

(** The successor the auto-advance and [nextChunk] look for: the chunk after
    the cursor's position, when the cursor is found and is not last. *)
Definition successor (p : Player) : option Chunk :=
  let idx := findIndex (hasIndex (currentChunkIndex p)) (chunks p) in
  if (0 <=? idx)%Z && (idx <? Z.of_nat (List.length (chunks p)) - 1)%Z
  then at_index (chunks p) (idx + 1)%Z
  else None.

(** The scenario episode resumed 95 s into chunk 0. *)
Definition scenarioAt95 : Player :=
  fst (loadEpisode (inr (scenarioEpisode (Some 0%Z) (Some 95))) None initial).

(** An episode whose ready chunks arrive in descending index order. *)
Definition descendingEpisode : Episode.t :=
  {| Episode.id := "ep"; Episode.title := "Descending";
     Episode.chunks := Some [readyChunk 1 50; readyChunk 0 100];
     Episode.current_chunk_index := None;
     Episode.position_secs := None |}.

(** An episode none of whose chunks is ready yet. *)
Definition pendingEpisode : Episode.t :=
  {| Episode.id := "ep2"; Episode.title := "Pending";
     Episode.chunks :=
       Some [{| chunk_index := 0; status := "pending"; duration_secs := None;
                text := "" |}];
     Episode.current_chunk_index := None;
     Episode.position_secs := None |}.

(** * Further parts of the player *)

(** ** The reactive store, state.js lines 5-42

    [_state] and [_listeners] are objects keyed by strings: maps from keys to
    a value and to the array of listeners of the key (a key without an
    entry reads [undefined], here [None] and the empty array).  A listener
    is a function object; it is known by its identity, and what the store
    sees of a call is whether it throws.  Listeners that call back into the
    store while they run are not modelled. *)

Definition Listener : Type := nat.

Record Store (V : Type) : Type := mkStore {
  values : string -> option V;
  listeners : string -> list Listener
}.

Arguments mkStore {V}.
Arguments values {V}.
Arguments listeners {V}.

Inductive StoreEffect (V : Type) : Type :=
| Notified (fn : Listener) (value : V)
| ConsoleError (fn : Listener).

Arguments Notified {V}.
Arguments ConsoleError {V}.

(** [obj[key] = v] *)
Definition assign {A : Type} (m : string -> A) (key : string) (v : A)
  : string -> A :=
  fun k => if String.eqb k key then v else m k.

(** [get(key)], lines 19-21. *)
Definition storeGet {V : Type} (key : string) (s : Store V) : option V :=
  values s key.

(** The loop of [set] over the listeners of the key, lines 25-29: each is
    called with the value inside [try]; a throw is logged and the loop goes
    on. *)
Fixpoint notifyAll {V : Type} (throws : Listener -> bool)
    (fns : list Listener) (value : V) : list (StoreEffect V) :=
  match fns with
  | [] => []
  | fn :: rest =>
      Notified fn value
      :: (if throws fn then [ConsoleError fn] else [])
      ++ notifyAll throws rest value
  end.

(** [set(key, value)], lines 23-30. *)
Definition storeSet {V : Type} (throws : Listener -> bool) (key : string)
    (value : V) (s : Store V) : Store V * list (StoreEffect V) :=
  ({| values := assign (values s) key (Some value);
      listeners := listeners s |},
   notifyAll throws (listeners s key) value).

(** [on(key, fn)], lines 32-34: the listener is pushed at the end. *)
Definition storeOn {V : Type} (key : string) (fn : Listener) (s : Store V)
  : Store V :=
  {| values := values s;
     listeners := assign (listeners s) key (listeners s key ++ [fn]) |}.

(** The function [on] returns, lines 35-37: it filters the listener out of
    the array of the key. *)
Definition unsubscribe {V : Type} (key : string) (fn : Listener)
    (s : Store V) : Store V :=
  {| values := values s;
     listeners :=
       assign (listeners s) key
         (filter (fun f => negb (Nat.eqb f fn)) (listeners s key)) |}.

(** ** Time formatting, player.js lines 1797-1802 *)

(** [Math.trunc]: the integer part, towards zero. *)
Definition Qtrunc (x : Q) : Z :=
  if Qle_bool 0 x then Qfloor x else Qceiling x.

(** [x % y] on numbers: the remainder has the sign of the dividend. *)
Definition jsRem (x y : Q) : Q := x - y * inject_Z (Qtrunc (x / y)).

(** [n.toString()] for an integer (below the size where JavaScript switches
    to exponent notation). *)
Definition toString (n : Z) : string := NilZero.string_of_int (Z.to_int n).

(** [s.padStart(2, '0')] *)
Definition padStart2 (s : string) : string :=
  match String.length s with
  | O => "00"
  | S O => "0" ++ s
  | _ => s
  end.

(** [formatTime(secs)]; [None] stands for a value that is not a finite
    number ([undefined], [NaN], an infinity). *)
Definition formatTime (secs : option Q) : string :=
  match secs with
  | None => "0:00"
  | Some x =>
      if isZero x then "0:00"
      else
        let m := Qfloor (x / 60) in
        let s := Qfloor (jsRem x 60) in
        toString m ++ ":" ++ padStart2 (toString s)
  end.

(** The two characters of a number of seconds below 60. *)
Definition twoDigits (s : Z) : string :=
  toString (s / 10) ++ toString (s mod 10).

(** ** Progress values shown by the player *)

(** [calculateEpisodeProgress], lines 95-98. *)
Definition calculateEpisodeProgress (p : Player) : Q :=
  match audio p with
  | None => 0
  | Some _ =>
      if isZero (totalEpisodeDuration p) then 0
      else (currentEpisodeTime p / totalEpisodeDuration p) * 100
  end.

(** The value [onTimeUpdate] writes to the mini-player scrubber, line 365
    (computed past the guard of line 355). *)
Definition chunkPercent (p : Player) : Q :=
  match audio p with
  | None => 0
  | Some a => (currentTime a / duration a) * 100
  end.

(** [chunks.length - currentIdx - 1] of [renderQueue], lines 154-155. *)
Definition remainingInQueue (p : Player) : Z :=
  Z.of_nat (List.length (chunks p))
  - findIndex (hasIndex (currentChunkIndex p)) (chunks p) - 1.

(** ** Chunk-level controls *)

(** The [player-scrubber] input handler, lines 1285-1289; [value] is the
    value of the range input. *)
Definition playerScrubberInput (value : Q) (p : Player) : Player :=
  match audio p with
  | None => p
  | Some a =>
      if isZero (duration a) then p
      else set_audio (Some (seekMedia a ((value / 100) * duration a))) p
  end.

(** The digit keys of the keyboard handler, lines 1410-1425; [digit] is
    [parseInt(e.key)] for a key from 0 to 9. *)
Definition digitKey (digit : Z) (p : Player) : Player :=
  match audio p with
  | None => p
  | Some a =>
      if isZero (duration a) then p
      else
        let percent := inject_Z (digit * 10) in
        set_audio (Some (seekMedia a ((percent / 100) * duration a))) p
  end.

(** The click handler of a queue item, lines 176-180 (and 1190-1195). *)
Definition queueItemClick (chunk : Chunk) (p : Player)
  : Player * list Effect :=
  let saved := savePosition None p in
  let '(p1, loaded, _) := loadChunk (chunk_index chunk) p in
  (p1, saved ++ loaded ++ playAudio p1).

(** ** Swipe gestures, lines 841-866

    [touchStartTime] is the module variable the [touchstart] listeners set
    to [Date.now()].  Haptic feedback is left out. *)
Definition handleSwipe (startX endX startY endY touchStartTime : Q)
    (p : Player) : Player * list Effect :=
  let diffX := endX - startX in
  let diffY := endY - startY in
  let absX := Qabs diffX in
  let absY := Qabs diffY in
  if Qgtb absY absX then (p, [])
  else
    let minSwipe := 50 in
    let maxTime := 500 in
    if Qgtb absX minSwipe && Qgtb maxTime touchStartTime
    then if Qgtb diffX 0 then prevChunk p else nextChunk p
    else (p, []).

(** ** Subtitle synchronisation, lines 751-773 *)

(** The loop of [updateSubtitlesSync], lines 757-766: [i] is the loop index,
    [current] the value of [currentSentenceIndex] so far. *)
Fixpoint findSentence (timings : list Q) (i : nat) (elapsedTime : Q)
    (currentTime : Q) (current : nat) : nat :=
  match timings with
  | [] => current
  | timing :: rest =>
      if Qgtb (elapsedTime + timing) currentTime
      then i
      else findSentence rest (S i) (elapsedTime + timing) currentTime i
  end.

Definition currentSentenceIndex (subtitleTimings : list Q) (currentTime : Q)
  : nat :=
  findSentence subtitleTimings 0 0 currentTime 0.

(** ** Mute, lines 1116-1140 *)

(** [audio.volume] with the module variables [isMuted] and
    [previousVolume]; [volume] is [None] while there is no media element. *)
Record Mixer : Type := mkMixer {
  volume : option Q;
  isMuted : bool;
  previousVolume : Q
}.

Definition toggleMute (m : Mixer) : Mixer * list Effect :=
  match volume m with
  | None => (m, [])
  | Some v =>
      if isMuted m
      then ({| volume := Some (previousVolume m); isMuted := false;
               previousVolume := previousVolume m |},
            [Toast "Unmuted" "info"])
      else ({| volume := Some 0; isMuted := true;
               previousVolume := if isZero v then 1 else v |},
            [Toast "Muted" "info"])
  end.

(** ** Sleep timer, lines 925-968 *)

(** Effects of the timer: those of the player, and [audio.pause()]. *)
Inductive TimerEffect : Type :=
| FromPlayer (e : Effect)
| MediaPause.

(** [sleepTimerId] is kept as the flag whether an interval is installed. *)
Record SleepTimer : Type := mkSleepTimer {
  sleepTimerId : bool;
  sleepTimerRemaining : Z
}.

(** [cancelSleepTimer], lines 961-968. *)
Definition cancelSleepTimer (t : SleepTimer) : SleepTimer :=
  if sleepTimerId t
  then {| sleepTimerId := false; sleepTimerRemaining := 0 |}
  else t.

(** [setSleepTimer(seconds)], lines 928-959; the menu passes a number of
    seconds or -1 for the end of the chapter. *)
Definition setSleepTimer (seconds : Z) (t : SleepTimer) (p : Player)
  : SleepTimer * list TimerEffect :=
  let t := cancelSleepTimer t in
  let chosen :=
    if (seconds =? -1)%Z
    then match audio p with
         | Some a =>
             if isZero (duration a) then None
             else Some (Qceiling (duration a - currentTime a))
         | None => None
         end
    else Some seconds in
  match chosen with
  | None => (t, [FromPlayer (Toast "No audio playing" "error")])
  | Some secs =>
      ({| sleepTimerId := true; sleepTimerRemaining := secs |},
       [FromPlayer
          (Toast ("Sleep timer: " ++ formatTime (Some (inject_Z secs)))
                 "info")])
  end.

(** The interval callback, lines 942-954; it runs once a second while the
    interval is installed. *)
Definition sleepTick (t : SleepTimer) (p : Player)
  : SleepTimer * list TimerEffect :=
  if sleepTimerId t
  then
    let t := {| sleepTimerId := sleepTimerId t;
                sleepTimerRemaining := sleepTimerRemaining t - 1 |} in
    if (sleepTimerRemaining t <=? 0)%Z
    then (cancelSleepTimer t,
          (match audio p with
           | Some _ => [MediaPause]
           | None => []
           end)
          ++ map FromPlayer (savePosition None p)
          ++ [FromPlayer (Toast "Sleep timer ended" "info")])
    else (t, [])
  else (t, []).

(** [k] runs of the interval callback, with the effects in order. *)
Fixpoint sleepTicks (k : nat) (t : SleepTimer) (p : Player)
  : SleepTimer * list TimerEffect :=
  match k with
  | O => (t, [])
  | S k' =>
      let '(t1, e1) := sleepTick t p in
      let '(t2, e2) := sleepTicks k' t1 p in
      (t2, e1 ++ e2)
  end.

(** What the interval callback emits when the countdown ends, lines
    947-953: pause, save, notice. *)
Definition sleepTimerEnd (p : Player) : list TimerEffect :=
  (match audio p with
   | Some _ => [MediaPause]
   | None => []
   end)
  ++ map FromPlayer (savePosition None p)
  ++ [FromPlayer (Toast "Sleep timer ended" "info")].

(** ** Playback history, lines 1013-1037 *)

Record HistoryEntry : Type := mkHistoryEntry {
  entry_id : string;
  entry_title : string;
  playedAt : Z;
  progress : Q
}.

Definition MAX_HISTORY : nat := 50.

(** The list [addToHistory] writes back to local storage, lines 1019-1037:
    [history] is the stored list, [now] the value of [Date.now()], and the
    episode is given by its id, title and [percent_listened].  The call of
    [state.emit] on line 1038 comes after the list has been stored; what it
    does to the caller is part of [onEnded]. *)
Definition addToHistory (episode_id title : string)
    (percent_listened : option Q) (now : Z) (history : list HistoryEntry)
  : list HistoryEntry :=
  let history :=
    filter (fun h => negb (String.eqb (entry_id h) episode_id)) history in
  let history :=
    {| entry_id := episode_id; entry_title := title; playedAt := now;
       progress := orZero percent_listened |} :: history in
  if (MAX_HISTORY <? List.length history)%nat
  then firstn MAX_HISTORY history
  else history.

(** ** The events of a playback session

    The handlers [init], [initFullscreenPlayer] and [loadChunk] attach to the
    controls and to the media element, as events of one type; [run] feeds a
    sequence of them to the player.  A queue item is given by its position
    in the chunk list it was rendered from.  A handler that stops at an
    exception leaves the state as it was at that point, and the session goes
    on with the next event. *)
Inductive Event : Type :=
| TimeUpdate
| Ended
| FsScrubber (pct : Q)
| PlayerScrubber (value : Q)
| DigitKey (digit : Z)
| Skip (secs : Q)
| NextChunk
| PrevChunk
| QueueItem (position : nat).

Definition handle (e : Event) (p : Player) : Player :=
  match e with
  | TimeUpdate => onTimeUpdate p
  | Ended => fst (fst (onEnded p))
  | FsScrubber pct => fst (fsScrubberInput pct p)
  | PlayerScrubber value => playerScrubberInput value p
  | DigitKey digit => digitKey digit p
  | Skip secs => skip secs p
  | NextChunk => fst (nextChunk p)
  | PrevChunk => fst (prevChunk p)
  | QueueItem position =>
      match nth_error (chunks p) position with
      | Some chunk => fst (queueItemClick chunk p)
      | None => p
      end
  end.

Definition run (events : list Event) (p : Player) : Player :=
  fold_left (fun q e => handle e q) events p.

(** ** Proof tools *)

Ltac clamp_cases hi t lo :=
  unfold clamp;
  destruct (Q.min_spec hi t) as [[? ?] | [? ?]];
  destruct (Q.max_spec lo (Qmin hi t)) as [[? ?] | [? ?]];
  lra.

Ltac by_chunks H :=
  induction H as [| ?c ?rest ?Hc ?Hrest ?IH]; cbv beta in *; simpl.

Arguments calculateEpisodeTime : simpl never.
Arguments sumDurations : simpl never.
Arguments clamp : simpl never.

(** * Properties *)

(** ** Arithmetic of the prefix sums *)

Lemma Qgtb_true (a b : Q) : Qgtb a b = true <-> b < a.
Proof.
  unfold Qgtb. rewrite negb_true_iff.
  destruct (Qle_bool a b) eqn:E.
  - apply Qle_bool_iff in E. split; [discriminate | lra].
  - split; [intros _ | reflexivity].
    destruct (Qlt_le_dec b a) as [H | H]; [exact H |].
    apply Qle_bool_iff in H. congruence.
Qed.

Lemma Qgtb_false (a b : Q) : Qgtb a b = false <-> a <= b.
Proof.
  destruct (Qgtb a b) eqn:E.
  - apply Qgtb_true in E. split; [discriminate | lra].
  - split; [intros _ | reflexivity].
    destruct (Qlt_le_dec b a) as [H | H]; [| exact H].
    apply Qgtb_true in H. congruence.
Qed.

Lemma isZero_true (x : Q) : isZero x = true <-> x == 0.
Proof. unfold isZero. apply Qeq_bool_iff. Qed.

Lemma isZero_false (x : Q) : isZero x = false <-> ~ x == 0.
Proof.
  rewrite <- isZero_true. destruct (isZero x); split; congruence.
Qed.

Lemma clamp_inside (t lo hi : Q) : lo <= t <= hi -> clamp t lo hi == t.
Proof. intros [H1 H2]. clamp_cases hi t lo. Qed.

Lemma clamp_below (t lo hi : Q) : lo <= hi -> t <= lo -> clamp t lo hi == lo.
Proof. intros H1 H2. clamp_cases hi t lo. Qed.

Lemma clamp_above (t lo hi : Q) : lo <= hi -> hi <= t -> clamp t lo hi == hi.
Proof. intros H1 H2. clamp_cases hi t lo. Qed.

Lemma clamp_bounds (t lo hi : Q) : lo <= hi -> lo <= clamp t lo hi <= hi.
Proof.
  intros H.
  destruct (Qlt_le_dec t lo) as [A | A].
  - rewrite clamp_below by lra. lra.
  - destruct (Qlt_le_dec hi t) as [B | B].
    + rewrite clamp_above by lra. lra.
    + rewrite clamp_inside by lra. lra.
Qed.

Lemma fold_sum_acc (cs : list Chunk) (a : Q) :
  fold_left (fun sum c => sum + orZero (duration_secs c)) cs a
  == a + totalOf cs.
Proof.
  revert a. induction cs as [| c rest IH]; intros a; simpl.
  - lra.
  - rewrite IH. unfold chunkDur. lra.
Qed.

Lemma sumDurations_totalOf (cs : list Chunk) : sumDurations cs == totalOf cs.
Proof. unfold sumDurations. rewrite fold_sum_acc. lra. Qed.

Lemma fold_prefix_acc (i : Z) (cs : list Chunk) (a : Q) :
  fold_left
    (fun time chunk =>
       if (chunk_index chunk <? i)%Z
       then time + orZero (duration_secs chunk) else time) cs a
  == a + prefixTime i cs.
Proof.
  revert a. induction cs as [| c rest IH]; intros a; simpl.
  - lra.
  - rewrite IH. unfold chunkDur. destruct (chunk_index c <? i)%Z; lra.
Qed.

Lemma calculateEpisodeTime_prefixTime (cs : list Chunk) (i : Z) :
  calculateEpisodeTime cs i == prefixTime i cs.
Proof. unfold calculateEpisodeTime. rewrite fold_prefix_acc. lra. Qed.

Lemma totalOf_nonneg (cs : list Chunk) : nonnegDurations cs -> 0 <= totalOf cs.
Proof. intros Hnn. by_chunks Hnn; lra. Qed.

Lemma prefixTime_nonneg (cs : list Chunk) (i : Z) :
  nonnegDurations cs -> 0 <= prefixTime i cs.
Proof.
  intros Hnn. by_chunks Hnn; [lra |].
  destruct (chunk_index c <? i)%Z; lra.
Qed.

Lemma prefixTime_mono (cs : list Chunk) (i j : Z) :
  nonnegDurations cs -> (i <= j)%Z -> prefixTime i cs <= prefixTime j cs.
Proof.
  intros Hnn Hij. by_chunks Hnn; [lra |].
  destruct (chunk_index c <? i)%Z eqn:Ei;
    destruct (chunk_index c <? j)%Z eqn:Ej; try lra.
  apply Z.ltb_lt in Ei. apply Z.ltb_ge in Ej. lia.
Qed.

Lemma prefixTime_le_total (cs : list Chunk) (i : Z) :
  nonnegDurations cs -> prefixTime i cs <= totalOf cs.
Proof.
  intros Hnn. by_chunks Hnn; [lra |].
  destruct (chunk_index c <? i)%Z; lra.
Qed.

(** A chunk whose index lies in [i, j) is counted by [prefixTime j] and not
    by [prefixTime i]. *)
Lemma prefixTime_step (cs : list Chunk) (i j : Z) (c : Chunk) :
  nonnegDurations cs -> In c cs -> (i <= chunk_index c < j)%Z ->
  prefixTime i cs + chunkDur c <= prefixTime j cs.
Proof.
  intros Hnn Hin Hc.
  induction Hnn as [| x rest Hx Hrest IH]; cbv beta in *; simpl;
    [destruct Hin |].
  destruct Hin as [-> | Hin].
  - pose proof (prefixTime_mono rest i j Hrest ltac:(lia)) as Hm.
    destruct (chunk_index c <? i)%Z eqn:Ei;
      [apply Z.ltb_lt in Ei; lia |].
    destruct (chunk_index c <? j)%Z eqn:Ej;
      [| apply Z.ltb_ge in Ej; lia].
    lra.
  - specialize (IH Hin).
    destruct (chunk_index x <? i)%Z eqn:Ei;
      destruct (chunk_index x <? j)%Z eqn:Ej; try lra.
    apply Z.ltb_lt in Ei. apply Z.ltb_ge in Ej. lia.
Qed.

(** The interval of a chunk of the sequence ends inside the episode. *)
Lemma prefixTime_end_le_total (cs : list Chunk) (c : Chunk) :
  nonnegDurations cs -> In c cs ->
  prefixTime (chunk_index c) cs + chunkDur c <= totalOf cs.
Proof.
  intros Hnn Hin.
  induction Hnn as [| x rest Hx Hrest IH]; cbv beta in *; simpl;
    [destruct Hin |].
  destruct Hin as [-> | Hin].
  - rewrite Z.ltb_irrefl.
    pose proof (prefixTime_le_total rest (chunk_index c) Hrest). lra.
  - specialize (IH Hin).
    destruct (chunk_index x <? chunk_index c)%Z; lra.
Qed.

(** No chunk below index [i]: nothing precedes it. *)
Lemma prefixTime_none_below (i : Z) (cs : list Chunk) :
  Forall (fun c => (i <= chunk_index c)%Z) cs -> prefixTime i cs == 0.
Proof.
  induction 1 as [| c rest Hc _ IH]; simpl; [lra |].
  destruct (chunk_index c <? i)%Z eqn:E; [| lra].
  apply Z.ltb_lt in E. lia.
Qed.

Lemma ascending_inv (c : Chunk) (rest : list Chunk) :
  ascending (c :: rest) ->
  ascending rest
  /\ Forall (fun x => (chunk_index c < chunk_index x)%Z) rest.
Proof. intros H. inversion H; subst. split; assumption. Qed.

Lemma prefixTime_head (c : Chunk) (rest : list Chunk) :
  ascending (c :: rest) -> prefixTime (chunk_index c) (c :: rest) == 0.
Proof.
  intros H. apply prefixTime_none_below.
  destruct (ascending_inv _ _ H) as [_ Hall].
  constructor; [lia |].
  eapply Forall_impl; [| exact Hall]. simpl. intros; lia.
Qed.

(** In an ascending sequence the index of a chunk determines the chunk. *)
Lemma ascending_find (cs : list Chunk) (c : Chunk) :
  ascending cs -> In c cs -> find (hasIndex (chunk_index c)) cs = Some c.
Proof.
  induction cs as [| x rest IH]; intros Hasc Hin; [destruct Hin |].
  destruct (ascending_inv _ _ Hasc) as [Hrest Hall].
  simpl. unfold hasIndex at 1.
  destruct Hin as [-> | Hin].
  - rewrite Z.eqb_refl. reflexivity.
  - rewrite Forall_forall in Hall. specialize (Hall _ Hin).
    destruct (chunk_index x =? chunk_index c)%Z eqn:E.
    + apply Z.eqb_eq in E. lia.
    + apply IH; assumption.
Qed.

Lemma find_hasIndex (cs : list Chunk) (i : Z) (c : Chunk) :
  find (hasIndex i) cs = Some c -> In c cs /\ chunk_index c = i.
Proof.
  intros H. apply find_some in H. destruct H as [Hin Hi].
  split; [exact Hin |]. apply Z.eqb_eq. exact Hi.
Qed.

Lemma ascending_durationOf (cs : list Chunk) (c : Chunk) :
  ascending cs -> In c cs -> durationOf cs (chunk_index c) = chunkDur c.
Proof.
  intros Hasc Hin. unfold durationOf.
  rewrite (ascending_find _ _ Hasc Hin). reflexivity.
Qed.

(** ** The chunk search of the scrubber *)

(** Past the end of the sequence no running end time exceeds the target: the
    loop leaves without [break] and the initial value is returned. *)
Lemma findTargetChunk_past_end (cs : list Chunk) (acc t : Q) (dflt : Chunk) :
  nonnegDurations cs -> acc + totalOf cs <= t ->
  findTargetChunk cs acc t dflt = dflt.
Proof.
  intros Hnn. revert acc.
  induction Hnn as [| c rest Hc Hrest IH]; intros acc Ht; simpl in *.
  - reflexivity.
  - fold (chunkDur c).
    pose proof (totalOf_nonneg _ Hrest) as Hr.
    destruct (Qgtb (acc + chunkDur c) t) eqn:E.
    + apply Qgtb_true in E. lra.
    + apply IH. lra.
Qed.

(** Before the end the search answers with a chunk of the sequence whose
    cumulative interval holds the target (for a target below [acc] the
    interval is entered from the left: the first chunk with a positive
    running end). *)
Lemma findTargetChunk_interval (cs : list Chunk) (acc t : Q) (dflt : Chunk) :
  ascending cs -> nonnegDurations cs -> (cs = [] -> acc <= t) ->
  t < acc + totalOf cs ->
  let c := findTargetChunk cs acc t dflt in
  In c cs
  /\ (acc <= t -> acc + prefixTime (chunk_index c) cs <= t)
  /\ t < acc + prefixTime (chunk_index c) cs + chunkDur c.
Proof.
  intros Hasc Hnn. revert acc Hasc.
  induction Hnn as [| x rest Hx Hrest IH]; intros acc Hasc Hne Ht;
    simpl in Ht.
  - specialize (Hne eq_refl). lra.
  - destruct (ascending_inv _ _ Hasc) as [Hasc' Hall].
    cbn [findTargetChunk]. fold (chunkDur x).
    destruct (Qgtb (acc + chunkDur x) t) eqn:E.
    + apply Qgtb_true in E.
      pose proof (prefixTime_head _ _ Hasc) as H0.
      cbv zeta. split; [left; reflexivity |]. split; intros; lra.
    + apply Qgtb_false in E.
      assert (t < acc + chunkDur x + totalOf rest) as Ht' by lra.
      specialize (IH (acc + chunkDur x) Hasc' (fun _ => E) Ht').
      cbv zeta in IH. destruct IH as (Hin & Hlo & Hhi).
      set (c := findTargetChunk rest (acc + chunkDur x) t dflt) in *.
      cbv zeta. split; [right; exact Hin |].
      rewrite Forall_forall in Hall. specialize (Hall _ Hin).
      cbn [prefixTime].
      destruct (chunk_index x <? chunk_index c)%Z eqn:Ex;
        [| apply Z.ltb_ge in Ex; lia].
      split; intros; [specialize (Hlo E) |]; lra.
Qed.

(** The interval that holds a time is unique up to the chunk index. *)
Lemma interval_unique (cs : list Chunk) (c c' : Chunk) (t : Q) :
  nonnegDurations cs -> In c cs -> In c' cs ->
  prefixTime (chunk_index c) cs <= t
    < prefixTime (chunk_index c) cs + chunkDur c ->
  prefixTime (chunk_index c') cs <= t
    < prefixTime (chunk_index c') cs + chunkDur c' ->
  chunk_index c = chunk_index c'.
Proof.
  intros Hnn Hin Hin' [H1 H2] [H1' H2'].
  destruct (Z.lt_trichotomy (chunk_index c) (chunk_index c'))
    as [Hlt | [Heq | Hgt]]; [| exact Heq |].
  - pose proof (prefixTime_step cs (chunk_index c) (chunk_index c') c
                  Hnn Hin ltac:(lia)). lra.
  - pose proof (prefixTime_step cs (chunk_index c') (chunk_index c) c'
                  Hnn Hin' ltac:(lia)). lra.
Qed.

(** Below the end of the sequence the resolved chunk index does not decrease
    with the target time. *)
Lemma findTargetChunk_monotone (cs : list Chunk) (acc t1 t2 : Q)
    (dflt : Chunk) :
  ascending cs -> nonnegDurations cs ->
  t1 <= t2 -> t2 < acc + totalOf cs ->
  (chunk_index (findTargetChunk cs acc t1 dflt)
   <= chunk_index (findTargetChunk cs acc t2 dflt))%Z.
Proof.
  intros Hasc Hnn H12. revert acc Hasc.
  induction Hnn as [| x rest Hx Hrest IH]; intros acc Hasc Ht; simpl in Ht.
  - simpl. lia.
  - destruct (ascending_inv _ _ Hasc) as [Hasc' Hall].
    cbn [findTargetChunk]. fold (chunkDur x).
    destruct (Qgtb (acc + chunkDur x) t2) eqn:E2.
    + apply Qgtb_true in E2.
      assert (Qgtb (acc + chunkDur x) t1 = true) as ->
          by (apply Qgtb_true; lra).
      lia.
    + apply Qgtb_false in E2.
      assert (t2 < acc + chunkDur x + totalOf rest) as Ht' by lra.
      destruct (Qgtb (acc + chunkDur x) t1) eqn:E1.
      * destruct (findTargetChunk_interval rest (acc + chunkDur x) t2 dflt
                    Hasc' Hrest (fun _ => E2) Ht') as (Hin & _).
        rewrite Forall_forall in Hall. specialize (Hall _ Hin). lia.
      * apply IH; assumption.
Qed.

Lemma findTargetChunk_In (cs : list Chunk) (acc t : Q) (dflt : Chunk) :
  let c := findTargetChunk cs acc t dflt in In c cs \/ c = dflt.
Proof.
  revert acc. induction cs as [| x rest IH]; intros acc; simpl.
  - right. reflexivity.
  - destruct (Qgtb (acc + orZero (duration_secs x)) t).
    + left. left. reflexivity.
    + destruct (IH (acc + orZero (duration_secs x))) as [H | H];
        [left; right; exact H | right; exact H].
Qed.

(** A target before the start of the episode resolves to the first chunk. *)
Lemma findTargetChunk_before_start (c : Chunk) (rest : list Chunk) (t : Q)
    (dflt : Chunk) :
  0 <= chunkDur c -> t < 0 -> findTargetChunk (c :: rest) 0 t dflt = c.
Proof.
  intros Hc Ht. simpl. fold (chunkDur c).
  assert (Qgtb (0 + chunkDur c) t = true) as -> by (apply Qgtb_true; lra).
  reflexivity.
Qed.

(** ** The media surface *)

Lemma clamp_compat (t t' lo lo' hi hi' : Q) :
  t == t' -> lo == lo' -> hi == hi' -> clamp t lo hi == clamp t' lo' hi'.
Proof.
  intros Ht Hlo Hhi. unfold clamp.
  destruct (Q.min_spec hi t) as [[? ?] | [? ?]];
    destruct (Q.min_spec hi' t') as [[? ?] | [? ?]];
    destruct (Q.max_spec lo (Qmin hi t)) as [[? ?] | [? ?]];
    destruct (Q.max_spec lo' (Qmin hi' t')) as [[? ?] | [? ?]];
    lra.
Qed.

Lemma seekMedia_currentTime (a : Audio) (t : Q) :
  currentTime (seekMedia a t) = clamp t 0 (duration a).
Proof. reflexivity. Qed.

Lemma seekMedia_duration (a : Audio) (t : Q) :
  duration (seekMedia a t) = duration a.
Proof. reflexivity. Qed.

(** ** Facts about loaded states *)

Lemma Loaded_cursor_chunk (p : Player) :
  Loaded p ->
  exists c a,
    In c (chunks p) /\ chunk_index c = currentChunkIndex p
    /\ audio p = Some a /\ duration a == chunkDur c
    /\ 0 <= currentTime a <= duration a.
Proof.
  intros L. destruct (loaded_cursor p L) as (c & Hin & Hc).
  pose proof (loaded_media p L) as Hm. unfold mediaSynced in Hm.
  destruct (audio p) as [a |] eqn:Ea; [| contradiction].
  exists c, a. repeat split; try tauto.
  rewrite <- Hc in Hm.
  rewrite (ascending_durationOf _ _ (loaded_ascending p L) Hin) in Hm.
  tauto.
Qed.

Lemma Loaded_nonempty (p : Player) :
  Loaded p -> exists first rest, chunks p = first :: rest.
Proof.
  intros L. destruct (loaded_cursor p L) as (c & Hin & _).
  destruct (chunks p) as [| first rest]; [destruct Hin | eauto].
Qed.

(** The outcome of the episode-level seek: the cursor sits on the resolved
    chunk, at the target's distance from that chunk's start, kept inside the
    chunk by the media element. *)
Lemma seekEpisodeTime_cursor (p : Player) (t : Q) (first : Chunk)
    (rest : list Chunk) :
  Loaded p -> chunks p = first :: rest ->
  let c := findTargetChunk (chunks p) 0 t first in
  let p' := fst (seekEpisodeTime t p) in
  chunks p' = chunks p
  /\ currentEpisode p' = currentEpisode p
  /\ totalEpisodeDuration p' = totalEpisodeDuration p
  /\ currentChunkIndex p' = chunk_index c
  /\ exists a',
       audio p' = Some a'
       /\ duration a' == chunkDur c
       /\ currentTime a'
          == clamp (t - prefixTime (chunk_index c) (chunks p)) 0 (chunkDur c).
Proof.
  intros L Hcs c p'.
  assert (In c (chunks p)) as Hin.
  { destruct (findTargetChunk_In (chunks p) 0 t first) as [H | H];
      [exact H |].
    fold c in H. rewrite H, Hcs. left. reflexivity. }
  destruct (Loaded_cursor_chunk p L) as (cur & a & Hcur & Hidx & Ha & Hd & Hr).
  pose proof (loaded_ascending p L) as Hasc.
  subst p'. unfold seekEpisodeTime. rewrite Hcs. rewrite <- Hcs. fold c.
  destruct (chunk_index c =? currentChunkIndex p)%Z eqn:E.
  - apply Z.eqb_eq in E. rewrite Ha. cbn.
    repeat split; try congruence.
    eexists. split; [reflexivity |].
    rewrite seekMedia_duration, seekMedia_currentTime.
    assert (chunkDur cur = chunkDur c) as Hsame.
    { rewrite <- (ascending_durationOf _ _ Hasc Hcur),
              <- (ascending_durationOf _ _ Hasc Hin). congruence. }
    split; [rewrite Hd, Hsame; reflexivity |].
    apply clamp_compat; [| reflexivity | rewrite Hd, Hsame; reflexivity].
    rewrite <- E.
    pose proof (calculateEpisodeTime_prefixTime (chunks p) (chunk_index c)).
    lra.
  - unfold loadChunk.
    destruct (currentEpisode p) as [ep |] eqn:Eep;
      [| exfalso; apply (loaded_episode p L); exact Eep].
    cbn. rewrite Eep.
    rewrite (ascending_find _ _ Hasc Hin). cbn.
    repeat split; try congruence.
    eexists. split; [reflexivity |].
    rewrite seekMedia_duration, seekMedia_currentTime. cbn.
    fold (chunkDur c). split; [reflexivity |].
    apply clamp_compat; try reflexivity.
    pose proof (calculateEpisodeTime_prefixTime (chunks p) (chunk_index c)).
    lra.
Qed.

(** [loadChunk] on a chunk of the sequence, with an episode current. *)
Lemma loadChunk_present (p : Player) (c : Chunk) (ep : Episode.t) :
  currentEpisode p = Some ep -> ascending (chunks p) -> In c (chunks p) ->
  loadChunk (chunk_index c) p
  = (set_audio (Some (loadMedia c)) (set_currentChunkIndex (chunk_index c) p),
     [MediaLoad (Episode.id ep) (chunk_index c)], Fulfilled).
Proof.
  intros Hep Hasc Hin. unfold loadChunk. cbn. rewrite Hep.
  rewrite (ascending_find _ _ Hasc Hin). reflexivity.
Qed.

(** Moving the cursor onto a chunk of the sequence, with the media element
    on that chunk, keeps the state well formed. *)
Lemma Loaded_move (p : Player) (c : Chunk) (a : Audio) (p' : Player) :
  Loaded p -> In c (chunks p) ->
  chunks p' = chunks p -> currentEpisode p' = currentEpisode p ->
  totalEpisodeDuration p' = totalEpisodeDuration p ->
  currentChunkIndex p' = chunk_index c ->
  audio p' = Some a -> duration a == chunkDur c ->
  0 <= currentTime a <= duration a ->
  Loaded p'.
Proof.
  intros L Hin Hcs Hep Htot Hcur Ha Hd Hr.
  constructor.
  - rewrite Hep. apply (loaded_episode p L).
  - rewrite Hcs. apply (loaded_ascending p L).
  - rewrite Hcs. apply (loaded_durations p L).
  - rewrite Hcs, Htot. apply (loaded_total p L).
  - exists c. rewrite Hcs, Hcur. split; [exact Hin | reflexivity].
  - unfold mediaSynced. rewrite Ha, Hcs, Hcur.
    rewrite (ascending_durationOf _ _ (loaded_ascending p L) Hin).
    split; assumption.
Qed.

Lemma Loaded_nonneg (p : Player) (c : Chunk) :
  Loaded p -> In c (chunks p) -> 0 <= chunkDur c.
Proof.
  intros L Hin. pose proof (loaded_durations p L) as H.
  unfold nonnegDurations in H. rewrite Forall_forall in H. apply H, Hin.
Qed.

(** The episode-level seek keeps the state well formed. *)
Lemma seekEpisodeTime_Loaded (p : Player) (t : Q) :
  Loaded p -> Loaded (fst (seekEpisodeTime t p)).
Proof.
  intros L.
  destruct (loaded_cursor p L) as (c0 & Hin0 & _).
  destruct (chunks p) as [| first rest] eqn:Hcs; [destruct Hin0 |].
  rewrite <- Hcs in *.
  destruct (seekEpisodeTime_cursor p t first rest L Hcs)
    as (H1 & H2 & H3 & H4 & a' & H5 & H6 & H7).
  assert (In (findTargetChunk (chunks p) 0 t first) (chunks p)) as Hin.
  { destruct (findTargetChunk_In (chunks p) 0 t first) as [H | H];
      [exact H |].
    rewrite H, Hcs. left. reflexivity. }
  pose proof (Loaded_nonneg p _ L Hin) as Hnn.
  eapply Loaded_move; eauto.
  rewrite H7, H6.
  apply clamp_bounds. exact Hnn.
Qed.

(** The search does not tell apart two representations of one rational. *)
Lemma findTargetChunk_Qeq (cs : list Chunk) (acc t t' : Q) (dflt : Chunk) :
  t == t' -> findTargetChunk cs acc t dflt = findTargetChunk cs acc t' dflt.
Proof.
  intros Ht. revert acc. induction cs as [| c rest IH]; intros acc; simpl.
  - reflexivity.
  - rewrite IH.
    destruct (Qgtb (acc + orZero (duration_secs c)) t) eqn:E;
      destruct (Qgtb (acc + orZero (duration_secs c)) t') eqn:E';
      try reflexivity.
    + apply Qgtb_true in E. apply Qgtb_false in E'. lra.
    + apply Qgtb_false in E. apply Qgtb_true in E'. lra.
Qed.

(** At or past the total duration the scrubber's search falls back to the
    first chunk of the sequence. *)
Lemma seekEpisodeTime_past_end (p : Player) (t : Q) (first : Chunk)
    (rest : list Chunk) :
  Loaded p -> chunks p = first :: rest -> totalEpisodeDuration p <= t ->
  currentChunkIndex (fst (seekEpisodeTime t p)) = chunk_index first.
Proof.
  intros L Hcs Ht.
  destruct (seekEpisodeTime_cursor p t first rest L Hcs)
    as (_ & _ & _ & H4 & _).
  rewrite H4. f_equal. apply findTargetChunk_past_end.
  - apply (loaded_durations p L).
  - pose proof (loaded_total p L) as Htot.
    rewrite sumDurations_totalOf in Htot. lra.
Qed.

(** Below the total duration the seek lands in the chunk whose cumulative
    interval holds the target, and reading the episode time back gives the
    target, clamped below at 0. *)
Lemma seekEpisodeTime_inside (p : Player) (t : Q) :
  Loaded p -> knownDurations (chunks p) -> t < totalEpisodeDuration p ->
  let p' := fst (seekEpisodeTime t p) in
  currentEpisodeTime (onTimeUpdate p')
  == clamp t 0 (totalEpisodeDuration p)
  /\ episodeTimeOf p' == clamp t 0 (totalEpisodeDuration p).
Proof.
  intros L Hknown Ht p'.
  destruct (loaded_cursor p L) as (c0 & Hin0 & _).
  destruct (chunks p) as [| first rest] eqn:Hcs; [destruct Hin0 |].
  rewrite <- Hcs in *.
  destruct (seekEpisodeTime_cursor p t first rest L Hcs)
    as (H1 & H2 & H3 & H4 & a' & H5 & H6 & H7).
  fold p' in H1, H2, H3, H4, H5.
  set (c := findTargetChunk (chunks p) 0 t first) in *.
  pose proof (loaded_total p L) as Htot.
  rewrite sumDurations_totalOf in Htot.
  pose proof (loaded_ascending p L) as Hasc.
  pose proof (loaded_durations p L) as Hnn.
  pose proof (totalOf_nonneg _ Hnn) as Htot0.
  assert (0 < chunkDur c /\ currentTime a' + prefixTime (chunk_index c)
            (chunks p) == clamp t 0 (totalEpisodeDuration p)) as [Hpos Hval].
  { destruct (Qlt_le_dec t 0) as [Hneg | Hge].
    - assert (c = first) as Hc.
      { subst c. rewrite Hcs. apply findTargetChunk_before_start; [| exact Hneg].
        apply (Loaded_nonneg p); [exact L | rewrite Hcs; left; reflexivity]. }
      assert (prefixTime (chunk_index c) (chunks p) == 0) as Hp0.
      { rewrite Hc, Hcs. apply prefixTime_head. rewrite <- Hcs. exact Hasc. }
      assert (0 < chunkDur c) as Hd.
      { unfold knownDurations in Hknown. rewrite Forall_forall in Hknown.
        apply Hknown. rewrite Hc, Hcs. left. reflexivity. }
      split; [exact Hd |].
      rewrite clamp_below in H7 by lra.
      rewrite clamp_below by lra. lra.
    - destruct (findTargetChunk_interval (chunks p) 0 t first Hasc Hnn)
        as (Hin & Hlo & Hhi).
      { rewrite Hcs. discriminate. }
      { lra. }
      fold c in Hin, Hlo, Hhi. specialize (Hlo Hge).
      assert (0 < chunkDur c) as Hd.
      { unfold knownDurations in Hknown. rewrite Forall_forall in Hknown.
        apply Hknown, Hin. }
      split; [exact Hd |].
      rewrite clamp_inside in H7 by lra.
      rewrite clamp_inside by lra. lra. }
  assert (episodeTimeOf p' == clamp t 0 (totalEpisodeDuration p)) as Hep.
  { unfold episodeTimeOf, cursorOffset. rewrite H5, H1, H4.
    pose proof (calculateEpisodeTime_prefixTime (chunks p) (chunk_index c)).
    lra. }
  split; [| exact Hep].
  unfold onTimeUpdate. rewrite H5.
  assert (isZero (duration a') = false) as ->
      by (apply isZero_false; lra).
  cbn. unfold episodeTimeOf, cursorOffset in Hep. rewrite H5 in Hep.
  exact Hep.
Qed.

(** ** Opening an episode *)

Lemma findIndexFrom_range {A : Type} (f : A -> bool) (l : list A) (i : Z) :
  (0 <= i)%Z ->
  match find f l with
  | Some _ => (i <= findIndexFrom f l i)%Z
  | None => findIndexFrom f l i = (-1)%Z
  end.
Proof.
  revert i. induction l as [| x rest IH]; intros i Hi; simpl.
  - reflexivity.
  - destruct (f x); [lia |].
    specialize (IH (i + 1)%Z ltac:(lia)).
    destruct (find f rest); lia.
Qed.

Lemma findIndex_negative {A : Type} (f : A -> bool) (l : list A) :
  (findIndex f l <? 0)%Z = true <-> find f l = None.
Proof.
  unfold findIndex.
  pose proof (findIndexFrom_range f l 0 ltac:(lia)) as H.
  destruct (find f l) eqn:E.
  - split; [| discriminate]. intros Hneg. apply Z.ltb_lt in Hneg. lia.
  - split; [reflexivity |]. intros _. rewrite H. reflexivity.
Qed.

Lemma resolvedChunk_found (first : Chunk) (rest : list Chunk) (requested : Z) :
  exists c,
    find (hasIndex (resolvedChunk (first :: rest) first requested))
         (first :: rest) = Some c.
Proof.
  unfold resolvedChunk.
  destruct (findIndex (hasIndex requested) (first :: rest) <? 0)%Z eqn:E.
  - exists first. simpl. unfold hasIndex at 1. rewrite Z.eqb_refl.
    reflexivity.
  - destruct (find (hasIndex requested) (first :: rest)) as [c |] eqn:F.
    + exists c. reflexivity.
    + apply findIndex_negative in F. congruence.
Qed.

(** [loadEpisode] on an episode with a ready chunk, written out. *)
Lemma loadEpisode_ready (episode : Episode.t) (startChunk : option Z)
    (p0 : Player) (first : Chunk) (rest : list Chunk) :
  readyChunks episode = first :: rest ->
  let ready := first :: rest in
  let cur := resolvedChunk ready first (requestedChunk episode startChunk) in
  let restore := restoresPosition episode startChunk in
  exists c,
    find (hasIndex cur) ready = Some c
    /\ loadEpisode (inr episode) startChunk p0
       = ({| audio :=
               Some (if restore
                     then seekMedia (loadMedia c)
                            (orZero (Episode.position_secs episode))
                     else loadMedia c);
             currentEpisode := Some episode;
             currentChunkIndex := cur;
             chunks := ready;
             totalEpisodeDuration := sumDurations ready;
             currentEpisodeTime :=
               if restore
               then (calculateEpisodeTime ready cur - durationOf ready cur)
                    + orZero (Episode.position_secs episode)
               else calculateEpisodeTime ready cur |},
          [MediaLoad (Episode.id episode) cur; MediaPlay]).
Proof.
  intros Hready ready cur restore.
  destruct (resolvedChunk_found first rest (requestedChunk episode startChunk))
    as (c & Hc).
  exists c. split; [exact Hc |].
  unfold loadEpisode. fold (readyChunks episode). rewrite Hready.
  cbn [chunks set_chunks set_currentEpisode].
  subst cur restore ready. unfold resolvedChunk, requestedChunk, restoresPosition in *.
  destruct startChunk as [s |];
    [| destruct (Episode.current_chunk_index episode) as [i |]];
    cbn [currentChunkIndex chunks set_currentChunkIndex
         set_totalEpisodeDuration set_chunks set_currentEpisode audio
         currentEpisode totalEpisodeDuration currentEpisodeTime] in *.
  all: match goal with
       | |- context [(findIndex ?f ?l <? 0)%Z] =>
           destruct (findIndex f l <? 0)%Z
       end.
  all: try destruct (truthy (Episode.position_secs episode)).
  all: unfold loadChunk;
    cbn [currentChunkIndex chunks set_currentChunkIndex
         set_totalEpisodeDuration set_chunks set_currentEpisode audio
         set_currentEpisodeTime set_audio
         currentEpisode totalEpisodeDuration currentEpisodeTime] in *;
    rewrite Hc;
    cbn [currentChunkIndex chunks set_currentChunkIndex
         set_totalEpisodeDuration set_chunks set_currentEpisode audio
         set_currentEpisodeTime set_audio playAudio app
         currentEpisode totalEpisodeDuration currentEpisodeTime];
    reflexivity.
Qed.

(** Opening an episode whose ready chunks ascend leaves a well-formed state:
    the invariant the other operations start from. *)
Lemma loadEpisode_Loaded (episode : Episode.t) (startChunk : option Z)
    (p0 : Player) :
  readyChunks episode <> [] ->
  ascending (readyChunks episode) ->
  nonnegDurations (readyChunks episode) ->
  Loaded (fst (loadEpisode (inr episode) startChunk p0)).
Proof.
  intros Hne Hasc Hnn.
  destruct (readyChunks episode) as [| first rest] eqn:Hready;
    [contradiction |].
  destruct (loadEpisode_ready episode startChunk p0 first rest Hready)
    as (c & Hc & ->).
  destruct (find_hasIndex _ _ _ Hc) as [Hin Hidx].
  assert (0 <= chunkDur c) as Hd.
  { unfold nonnegDurations in Hnn. rewrite Forall_forall in Hnn.
    apply Hnn, Hin. }
  constructor; cbn [fst audio currentEpisode currentChunkIndex chunks
                    totalEpisodeDuration currentEpisodeTime].
  - discriminate.
  - exact Hasc.
  - exact Hnn.
  - reflexivity.
  - exists c. split; assumption.
  - unfold mediaSynced.
    cbn [audio currentEpisode currentChunkIndex chunks].
    unfold durationOf. rewrite Hc. fold (chunkDur c).
    destruct (restoresPosition episode startChunk).
    + rewrite seekMedia_duration, seekMedia_currentTime.
      change (duration (loadMedia c)) with (chunkDur c).
      split; [reflexivity | apply clamp_bounds; exact Hd].
    + change (duration (loadMedia c)) with (chunkDur c).
      change (currentTime (loadMedia c)) with 0.
      split; [reflexivity | lra].
Qed.

Lemma scenarioChunks_ascending : ascending scenarioChunks.
Proof. repeat constructor; simpl; lia. Qed.

Lemma scenarioChunks_known : knownDurations scenarioChunks.
Proof. repeat constructor; reflexivity. Qed.

Lemma knownDurations_nonneg (cs : list Chunk) :
  knownDurations cs -> nonnegDurations cs.
Proof.
  unfold knownDurations, nonnegDurations. apply Forall_impl.
  intros c H. lra.
Qed.

(** Every way of opening the scenario episode gives a well-formed state. *)
Lemma scenario_Loaded (cur : option Z) (pos : option Q)
    (startChunk : option Z) (p0 : Player) :
  Loaded (fst (loadEpisode (inr (scenarioEpisode cur pos)) startChunk p0)).
Proof.
  apply loadEpisode_Loaded.
  - discriminate.
  - exact scenarioChunks_ascending.
  - apply knownDurations_nonneg. exact scenarioChunks_known.
Qed.

Lemma scenarioPlayer_Loaded : Loaded scenarioPlayer.
Proof. apply scenario_Loaded. Qed.

(** With an episode loaded and a total that is not zero, the scrubber
    handler is the episode-level seek to [pct] percent of the total. *)
Lemma fsScrubberInput_seek (p : Player) (pct : Q) :
  Loaded p -> ~ totalEpisodeDuration p == 0 ->
  fsScrubberInput pct p
  = seekEpisodeTime ((pct / 100) * totalEpisodeDuration p) p.
Proof.
  intros L Hnz. unfold fsScrubberInput.
  apply isZero_false in Hnz. rewrite Hnz.
  destruct (Loaded_nonempty p L) as (first & rest & ->).
  reflexivity.
Qed.

(** The scrubber at 100 percent always resolves to the first chunk. *)
Lemma fsScrubberInput_full (p : Player) (first : Chunk) (rest : list Chunk) :
  Loaded p -> chunks p = first :: rest -> ~ totalEpisodeDuration p == 0 ->
  currentChunkIndex (fst (fsScrubberInput 100 p)) = chunk_index first.
Proof.
  intros L Hcs Hnz. rewrite (fsScrubberInput_seek p 100 L Hnz).
  apply (seekEpisodeTime_past_end p _ first rest L Hcs).
  assert (100 / 100 == 1) as H by reflexivity.
  rewrite H. lra.
Qed.

(** * The claims *)

(** ** C1: chunk resolution of the episode-level seek *)

(** The part of C1 the scrubber meets: for a time inside the episode the
    resolved chunk is a chunk of the sequence whose cumulative interval
    [prefixTime(idx), prefixTime(idx) + duration) holds the time.  The
    interval is half open, so a time on a boundary belongs to the later
    chunk. *)
Lemma chunkAt_inside (p : Player) (t : Q) (first : Chunk) (rest : list Chunk) :
  Loaded p -> chunks p = first :: rest ->
  0 <= t < totalEpisodeDuration p ->
  let c := findTargetChunk (chunks p) 0 t first in
  In c (chunks p)
  /\ calculateEpisodeTime (chunks p) (chunk_index c) <= t
     < calculateEpisodeTime (chunks p) (chunk_index c) + chunkDur c.
Proof.
  intros L Hcs [H0 Ht] c.
  pose proof (loaded_total p L) as Htot.
  rewrite sumDurations_totalOf in Htot.
  destruct (findTargetChunk_interval (chunks p) 0 t first
              (loaded_ascending p L) (loaded_durations p L))
    as (Hin & Hlo & Hhi).
  { rewrite Hcs. discriminate. }
  { lra. }
  fold c in Hin, Hlo, Hhi. specialize (Hlo H0).
  pose proof (calculateEpisodeTime_prefixTime (chunks p) (chunk_index c)).
  split; [exact Hin | lra].
Qed.

(** A time on the boundary between two chunks, inside the episode, resolves
    to a chunk after the one that ends there. *)
Lemma chunkAt_boundary_later (p : Player) (c first : Chunk)
    (rest : list Chunk) :
  Loaded p -> chunks p = first :: rest -> In c (chunks p) ->
  let t := calculateEpisodeTime (chunks p) (chunk_index c) + chunkDur c in
  t < totalEpisodeDuration p ->
  (chunk_index c < chunk_index (findTargetChunk (chunks p) 0 t first))%Z.
Proof.
  intros L Hcs Hin t Ht.
  pose proof (loaded_durations p L) as Hnn.
  pose proof (Loaded_nonneg p c L Hin) as Hd.
  pose proof (calculateEpisodeTime_prefixTime (chunks p) (chunk_index c))
    as Hstart.
  pose proof (prefixTime_nonneg (chunks p) (chunk_index c) Hnn) as Hp0.
  destruct (chunkAt_inside p t first rest L Hcs) as (Hin' & Hlo & Hhi).
  { subst t. lra. }
  set (c' := findTargetChunk (chunks p) 0 t first) in *.
  pose proof (calculateEpisodeTime_prefixTime (chunks p) (chunk_index c'))
    as Hstart'.
  destruct (Z.lt_trichotomy (chunk_index c') (chunk_index c))
    as [Hlt | [Heq | Hgt]]; [| | exact Hgt]; exfalso.
  - pose proof (prefixTime_step (chunks p) (chunk_index c') (chunk_index c)
                  c' Hnn Hin' ltac:(lia)).
    subst t. lra.
  - assert (chunkDur c' = chunkDur c) as Hsame.
    { rewrite <- (ascending_durationOf _ _ (loaded_ascending p L) Hin),
              <- (ascending_durationOf _ _ (loaded_ascending p L) Hin').
      congruence. }
    rewrite Heq, Hsame in *. subst t. lra.
Qed.

(** C1 (the code departs from the claim): at a time equal to the total
    duration the chunk lookup of the scrubber does not return the last chunk.
    In the scenario of three chunks of 100, 50 and 30 seconds, the scrubber
    at 100 percent targets 180 s; no running end time exceeds 180, the loop
    ends without a break and the initial value [chunks[0]] stays: the cursor
    lands on chunk 0 with offset 100 (the end of chunk 0), not on chunk 2
    with offset 30.  This holds from the first chunk and from the last. *)
Theorem C1_lookup_at_total_returns_first :
  sumDurations scenarioChunks == 180
  /\ chunk_index (findTargetChunk scenarioChunks 0 180 (readyChunk 0 100))
     = 0%Z
  /\ (let p' := fst (fsScrubberInput 100 scenarioPlayer) in
      currentChunkIndex p' = 0%Z /\ cursorOffset p' == 100)
  /\ (let onLast := fst (seekEpisodeTime 170 scenarioPlayer) in
      let p' := fst (fsScrubberInput 100 onLast) in
      currentChunkIndex onLast = 2%Z
      /\ currentChunkIndex p' = 0%Z /\ cursorOffset p' == 100).
Proof. vm_compute. repeat split; reflexivity. Qed.

(** ** C2: seek, then read the episode time *)

(** C2 (the code departs from the claim): seeking to the total duration and
    reading the episode time back does not give the total.  In the scenario
    the scrubber at 100 percent targets 180 s = clamp(180, 0, 180); the
    lookup falls back to chunk 0, the media element stops at the end of that
    chunk, and [onTimeUpdate] then stores 0 + 100 = 100. *)
Theorem C2_seek_total_reads_first_chunk_end :
  let p' := fst (fsScrubberInput 100 scenarioPlayer) in
  clamp 180 0 (totalEpisodeDuration scenarioPlayer) == 180
  /\ currentEpisodeTime (onTimeUpdate p') == 100
  /\ episodeTimeOf p' == 100.
Proof. vm_compute. repeat split; reflexivity. Qed.

(** ** C3: the scenario seek to 120 s *)

(** C3: with three chunks of indices 0, 1, 2 and durations 100, 50, 30
    seconds loaded, an episode-level seek to 120 s puts the cursor on chunk 1
    at offset 20 s, wherever the cursor was before; so does the scrubber
    handler at two thirds of its range, which targets 120 s. *)
Theorem C3_scenario_seek_120 (p : Player) :
  Loaded p ->
  map (fun c => (chunk_index c, duration_secs c)) (chunks p)
  = [(0%Z, Some 100); (1%Z, Some 50); (2%Z, Some 30)] ->
  let p' := fst (seekEpisodeTime 120 p) in
  let viaScrubber := fst (fsScrubberInput (200 # 3) p) in
  (currentChunkIndex p' = 1%Z /\ cursorOffset p' == 20)
  /\ (currentChunkIndex viaScrubber = 1%Z /\ cursorOffset viaScrubber == 20).
Proof.
  intros L Hcs p' viaScrubber.
  destruct (chunks p) as [| c0 [| c1 [| c2 [| ? ?]]]] eqn:E;
    try discriminate Hcs.
  destruct c0 as [i0 s0 d0 x0], c1 as [i1 s1 d1 x1], c2 as [i2 s2 d2 x2].
  cbn in Hcs. injection Hcs as -> -> -> -> -> ->.
  assert (totalEpisodeDuration p == 180) as Htot.
  { rewrite (loaded_total p L), E. vm_compute. reflexivity. }
  split.
  - destruct (seekEpisodeTime_cursor p 120 _ _ L E)
      as (_ & _ & _ & Hidx & a' & Ha & _ & Hct).
    fold p' in Hidx, Ha. rewrite E in Hidx, Hct.
    change (findTargetChunk _ 0 120 _) with (mkChunk 1 s1 (Some 50) x1)
      in Hidx, Hct.
    split; [exact Hidx |].
    unfold cursorOffset. rewrite Ha, Hct. vm_compute. reflexivity.
  - subst viaScrubber.
    rewrite (fsScrubberInput_seek p (200 # 3) L) by lra.
    set (t := (200 # 3) / 100 * totalEpisodeDuration p).
    assert (t == 120) as Ht.
    { subst t. rewrite Htot. vm_compute. reflexivity. }
    destruct (seekEpisodeTime_cursor p t _ _ L E)
      as (_ & _ & _ & Hidx & a' & Ha & _ & Hct).
    rewrite E in Hidx, Hct.
    rewrite (findTargetChunk_Qeq _ 0 t 120 _ Ht) in Hidx, Hct.
    change (findTargetChunk _ 0 120 _) with (mkChunk 1 s1 (Some 50) x1)
      in Hidx, Hct.
    split; [exact Hidx |].
    unfold cursorOffset. rewrite Ha, Hct.
    transitivity (clamp (120 - 100) 0 50).
    + apply clamp_compat; [| reflexivity | reflexivity].
      assert (prefixTime 1 [mkChunk 0 s0 (Some 100) x0;
                            mkChunk 1 s1 (Some 50) x1;
                            mkChunk 2 s2 (Some 30) x2] == 100) as Hp
          by (vm_compute; reflexivity).
      cbn [chunk_index]. rewrite Hp, Ht. reflexivity.
    + vm_compute. reflexivity.
Qed.

Lemma C3_scenario_seek_120_witness :
  let p' := fst (seekEpisodeTime 120 scenarioPlayer) in
  let viaScrubber := fst (fsScrubberInput (200 # 3) scenarioPlayer) in
  (currentChunkIndex p' = 1%Z /\ cursorOffset p' == 20)
  /\ (currentChunkIndex viaScrubber = 1%Z /\ cursorOffset viaScrubber == 20).
Proof.
  apply (C3_scenario_seek_120 scenarioPlayer).
  - exact scenarioPlayer_Loaded.
  - reflexivity.
Defined.

(** ** C6: monotonicity of the chunk lookup *)

(** The part of C6 that holds: below the total duration the resolved chunk
    index does not decrease with the target time. *)
Lemma chunkAt_monotone_inside (p : Player) (t1 t2 : Q) (first : Chunk) :
  Loaded p -> t1 < t2 -> t2 < totalEpisodeDuration p ->
  (chunk_index (findTargetChunk (chunks p) 0 t1 first)
   <= chunk_index (findTargetChunk (chunks p) 0 t2 first))%Z.
Proof.
  intros L H12 Ht.
  pose proof (loaded_total p L) as Htot.
  rewrite sumDurations_totalOf in Htot.
  apply findTargetChunk_monotone.
  - apply (loaded_ascending p L).
  - apply (loaded_durations p L).
  - lra.
  - lra.
Qed.

(** C6 (the code departs from the claim): the lookup is not monotone once
    the later time reaches the total duration.  In the scenario 120 < 180,
    the lookup at 120 s gives chunk 1, and at 180 s (the total) it falls back
    to chunk 0; the same is seen on the cursor after the two seeks. *)
Theorem C6_lookup_decreases_at_total :
  let chunkAt t :=
    chunk_index (findTargetChunk scenarioChunks 0 t (readyChunk 0 100)) in
  let cursorAfter t :=
    currentChunkIndex (fst (seekEpisodeTime t scenarioPlayer)) in
  120 < 180
  /\ chunkAt 120 = 1%Z /\ chunkAt 180 = 0%Z
  /\ ~ (chunkAt 120%Q <= chunkAt 180%Q)%Z
  /\ cursorAfter 120 = 1%Z /\ cursorAfter 180 = 0%Z.
Proof.
  vm_compute. repeat split; try reflexivity. intros H. apply H. reflexivity.
Qed.

(** ** C4: the relative skip *)

Lemma scenarioAt95_Loaded : Loaded scenarioAt95.
Proof. apply scenario_Loaded. Qed.

Lemma skip_cursor (p : Player) (delta : Q) :
  Loaded p ->
  let p' := skip delta p in
  chunks p' = chunks p
  /\ currentEpisode p' = currentEpisode p
  /\ totalEpisodeDuration p' = totalEpisodeDuration p
  /\ currentChunkIndex p' = currentChunkIndex p
  /\ exists a a',
       audio p = Some a /\ audio p' = Some a'
       /\ duration a' = duration a
       /\ currentTime a' == clamp (currentTime a + delta) 0 (duration a).
Proof.
  intros L p'.
  destruct (Loaded_cursor_chunk p L) as (c & a & Hin & Hidx & Ha & Hd & Hr).
  subst p'. unfold skip. rewrite Ha. cbn.
  repeat split.
  exists a. eexists. repeat split.
  rewrite seekMedia_currentTime.
  change (Qmax 0 (Qmin (duration a) (currentTime a + delta)))
    with (clamp (currentTime a + delta) 0 (duration a)).
  apply clamp_inside. apply clamp_bounds. lra.
Qed.

(** C4 fails as stated: 95 s into chunk 0 of the scenario, a skip of 10 s
    stops at the end of chunk 0 (cursor (0, 100), episode time 100), while
    the episode-level seek to the clamped target 95 + 10 = 105 moves to
    chunk 1 at offset 5. *)
Lemma C4_skip_is_not_episode_seek :
  let p := scenarioAt95 in
  let target := clamp (episodeTimeOf p + 10) 0 (totalEpisodeDuration p) in
  let skipped := skip 10 p in
  let sought := fst (seekEpisodeTime target p) in
  target == 105
  /\ currentChunkIndex skipped = 0%Z /\ cursorOffset skipped == 100
  /\ currentChunkIndex sought = 1%Z /\ cursorOffset sought == 5
  /\ currentChunkIndex skipped <> currentChunkIndex sought
  /\ ~ episodeTimeOf skipped == episodeTimeOf sought.
Proof.
  vm_compute. repeat split; try reflexivity; discriminate.
Qed.

(** C4, amended: the relative skip moves inside the current chunk only.  The
    cursor's chunk is unchanged and the new offset is the old offset plus
    delta, clamped to [0, duration of the current chunk], so the episode time
    stays within the current chunk's interval and nothing wraps around.  The
    skip agrees with the episode-level seek to currentEpisodeTime + delta
    whenever that target lies inside the current chunk's interval. *)
Theorem C4_skip_within_current_chunk (p : Player) (delta : Q) :
  Loaded p ->
  let p' := skip delta p in
  let d := durationOf (chunks p) (currentChunkIndex p) in
  let start := calculateEpisodeTime (chunks p) (currentChunkIndex p) in
  currentChunkIndex p' = currentChunkIndex p
  /\ chunks p' = chunks p
  /\ cursorOffset p' == clamp (cursorOffset p + delta) 0 d
  /\ start <= episodeTimeOf p' <= start + d
  /\ (start <= episodeTimeOf p + delta < start + d ->
      let q := fst (seekEpisodeTime (episodeTimeOf p + delta) p) in
      currentChunkIndex q = currentChunkIndex p'
      /\ cursorOffset q == cursorOffset p').
Proof.
  intros L p' d start.
  destruct (Loaded_cursor_chunk p L) as (c & a & Hin & Hidx & Ha & Hd & Hr).
  destruct (skip_cursor p delta L)
    as (Hcs & _ & _ & Hcur & a0 & a' & Ha0 & Ha' & Hdur & Hct).
  fold p' in Hcs, Hcur, Ha'.
  rewrite Ha in Ha0. injection Ha0 as <-.
  pose proof (loaded_ascending p L) as Hasc.
  pose proof (loaded_durations p L) as Hnn.
  assert (d = chunkDur c) as Hdc.
  { subst d. rewrite <- Hidx. apply ascending_durationOf; assumption. }
  assert (d == chunkDur c) as Hdq by (rewrite Hdc; reflexivity).
  assert (cursorOffset p' == clamp (cursorOffset p + delta) 0 d) as Hoff.
  { unfold cursorOffset. rewrite Ha, Ha', Hct.
    apply clamp_compat; try reflexivity. rewrite Hdc. exact Hd. }
  assert (0 <= cursorOffset p' <= d) as Hrange.
  { rewrite Hoff. apply clamp_bounds. rewrite Hdc. lra. }
  assert (episodeTimeOf p' == start + cursorOffset p') as Het.
  { unfold episodeTimeOf. rewrite Hcs, Hcur. reflexivity. }
  split; [exact Hcur |]. split; [exact Hcs |]. split; [exact Hoff |].
  split; [lra |].
  intros Hinside q.
  destruct (Loaded_nonempty p L) as (first & rest & Ecs).
  set (t := episodeTimeOf p + delta) in *.
  pose proof (calculateEpisodeTime_prefixTime (chunks p) (currentChunkIndex p))
    as Hstart.
  fold start in Hstart.
  pose proof (prefixTime_nonneg (chunks p) (currentChunkIndex p) Hnn) as Hp0.
  pose proof (prefixTime_end_le_total (chunks p) c Hnn Hin) as Hend.
  rewrite Hidx in Hend.
  pose proof (loaded_total p L) as Htot.
  rewrite sumDurations_totalOf in Htot.
  destruct (chunkAt_inside p t first rest L Ecs) as (Hin' & Hlo' & Hhi').
  { lra. }
  destruct (seekEpisodeTime_cursor p t first rest L Ecs)
    as (_ & _ & _ & Hqidx & aq & Haq & _ & Hqct).
  fold q in Hqidx, Haq.
  set (c' := findTargetChunk (chunks p) 0 t first) in *.
  pose proof (calculateEpisodeTime_prefixTime (chunks p) (chunk_index c'))
    as Hstart'.
  assert (chunk_index c' = chunk_index c) as Hsame.
  { apply (interval_unique (chunks p) c' c t Hnn Hin' Hin).
    - lra.
    - rewrite Hidx. lra. }
  assert (chunkDur c' = chunkDur c) as Hsamed.
  { rewrite <- (ascending_durationOf _ _ Hasc Hin),
            <- (ascending_durationOf _ _ Hasc Hin'). congruence. }
  split; [congruence |].
  assert (t == start + cursorOffset p + delta) as Ht.
  { subst t. unfold episodeTimeOf. fold start. lra. }
  rewrite Hoff. unfold cursorOffset at 1. rewrite Haq, Hqct.
  apply clamp_compat; [| reflexivity | rewrite Hsamed, Hdc; reflexivity].
  rewrite Hsame, Hidx. lra.
Qed.

Lemma C4_skip_within_current_chunk_witness :
  let p := scenarioAt95 in
  currentChunkIndex (skip 3 p) = currentChunkIndex p
  /\ currentChunkIndex (fst (seekEpisodeTime (episodeTimeOf p + 3) p))
     = currentChunkIndex (skip 3 p).
Proof.
  destruct (C4_skip_within_current_chunk scenarioAt95 3 scenarioAt95_Loaded)
    as (H1 & _ & _ & _ & H5).
  split; [exact H1 |].
  apply H5. vm_compute. split; [discriminate | reflexivity].
Defined.

(** ** C5: bounds of the elapsed time *)

(** The elapsed time derived from the cursor lies inside the episode in
    every well-formed state. *)
Lemma episodeTimeOf_bounds (p : Player) :
  Loaded p -> 0 <= episodeTimeOf p <= totalEpisodeDuration p.
Proof.
  intros L.
  destruct (Loaded_cursor_chunk p L) as (c & a & Hin & Hidx & Ha & Hd & Hr).
  pose proof (loaded_durations p L) as Hnn.
  pose proof (loaded_total p L) as Htot.
  rewrite sumDurations_totalOf in Htot.
  pose proof (calculateEpisodeTime_prefixTime (chunks p) (currentChunkIndex p))
    as Hstart.
  pose proof (prefixTime_nonneg (chunks p) (currentChunkIndex p) Hnn) as Hp0.
  pose proof (prefixTime_end_le_total (chunks p) c Hnn Hin) as Hend.
  rewrite Hidx in Hend.
  unfold episodeTimeOf, cursorOffset. rewrite Ha. lra.
Qed.

(** The recomputation on a progress tick stores that derived value, so the
    bound holds for the stored elapsed time after [onTimeUpdate]. *)
Lemma onTimeUpdate_bounds (p : Player) :
  Loaded p -> knownDurations (chunks p) ->
  let p' := onTimeUpdate p in
  currentEpisodeTime p' == episodeTimeOf p
  /\ 0 <= currentEpisodeTime p' <= totalEpisodeDuration p'.
Proof.
  intros L Hknown p'.
  destruct (Loaded_cursor_chunk p L) as (c & a & Hin & Hidx & Ha & Hd & Hr).
  assert (0 < chunkDur c) as Hpos.
  { unfold knownDurations in Hknown. rewrite Forall_forall in Hknown.
    apply Hknown, Hin. }
  pose proof (episodeTimeOf_bounds p L) as Hb.
  subst p'. unfold onTimeUpdate. rewrite Ha.
  assert (isZero (duration a) = false) as -> by (apply isZero_false; lra).
  cbn. unfold episodeTimeOf, cursorOffset in *. rewrite Ha in *.
  split; [reflexivity | exact Hb].
Qed.

Lemma onTimeUpdate_Loaded (p : Player) : Loaded p -> Loaded (onTimeUpdate p).
Proof.
  intros L. unfold onTimeUpdate.
  destruct (audio p) as [a |] eqn:Ha; [| exact L].
  destruct (isZero (duration a)); [exact L |].
  destruct L as [H1 H2 H3 H4 H5 H6].
  constructor; cbn; assumption.
Qed.

Lemma skip_Loaded (p : Player) (delta : Q) : Loaded p -> Loaded (skip delta p).
Proof.
  intros L.
  destruct (Loaded_cursor_chunk p L) as (c & a & Hin & Hidx & Ha & Hd & Hr).
  destruct (skip_cursor p delta L)
    as (Hcs & Hep & Htot & Hcur & a0 & a' & Ha0 & Ha' & Hdur & Hct).
  rewrite Ha in Ha0. injection Ha0 as <-.
  apply (Loaded_move p c a'); try assumption.
  - congruence.
  - rewrite Hdur. exact Hd.
  - rewrite Hct, Hdur. apply clamp_bounds. lra.
Qed.

(** C5 (the code departs from the claim): the elapsed time [loadEpisode]
    computes when it restores a persisted position is not the sum of the
    earlier chunks plus the offset; line 55 subtracts the duration of the
    current chunk from it.  Resuming the scenario episode (all durations
    known, total 180 s) at chunk 0, offset 20 s stores 0 - 100 + 20 = -80,
    below 0, although the cursor itself is (0, 20) and its derived elapsed
    time is 20. *)
Theorem C5_resume_elapsed_negative :
  let p :=
    fst (loadEpisode (inr (scenarioEpisode (Some 0%Z) (Some 20))) None
           initial) in
  knownDurations (chunks p)
  /\ totalEpisodeDuration p == 180
  /\ currentChunkIndex p = 0%Z /\ cursorOffset p == 20
  /\ episodeTimeOf p == 20
  /\ currentEpisodeTime p == -80
  /\ ~ 0 <= currentEpisodeTime p.
Proof.
  split; [exact scenarioChunks_known |].
  vm_compute. repeat split; try reflexivity. intros H. apply H. reflexivity.
Qed.

(** ** C7: advancing through the sequence *)

Lemma findIndexFrom_nth (cs : list Chunk) (n : nat) (c : Chunk) (i : Z) :
  ascending cs -> nth_error cs n = Some c ->
  findIndexFrom (hasIndex (chunk_index c)) cs i = (i + Z.of_nat n)%Z.
Proof.
  revert n i. induction cs as [| x rest IH]; intros n i Hasc Hn.
  - destruct n; discriminate.
  - destruct (ascending_inv _ _ Hasc) as [Hrest Hall].
    destruct n as [| m]; simpl in Hn.
    + injection Hn as ->. simpl. unfold hasIndex. rewrite Z.eqb_refl. lia.
    + pose proof (nth_error_In _ _ Hn) as Hin.
      rewrite Forall_forall in Hall. specialize (Hall _ Hin).
      simpl. unfold hasIndex at 1.
      destruct (chunk_index x =? chunk_index c)%Z eqn:E;
        [apply Z.eqb_eq in E; lia |].
      rewrite (IH m (i + 1)%Z Hrest Hn). lia.
Qed.

Lemma findIndex_nth (cs : list Chunk) (n : nat) (c : Chunk) :
  ascending cs -> nth_error cs n = Some c ->
  findIndex (hasIndex (chunk_index c)) cs = Z.of_nat n.
Proof.
  intros Hasc Hn. unfold findIndex.
  rewrite (findIndexFrom_nth cs n c 0 Hasc Hn). lia.
Qed.

Lemma at_index_succ {A : Type} (l : list A) (n : nat) :
  at_index l (Z.of_nat n + 1)%Z = nth_error l (S n).
Proof.
  unfold at_index.
  destruct (Z.ltb_spec (Z.of_nat n + 1) 0); [lia |].
  f_equal. lia.
Qed.

Lemma at_index_In {A : Type} (l : list A) (i : Z) (x : A) :
  at_index l i = Some x -> In x l.
Proof.
  unfold at_index. destruct (i <? 0)%Z; [discriminate |].
  apply nth_error_In.
Qed.

Lemma successor_at (p : Player) (n : nat) (c : Chunk) :
  ascending (chunks p) -> nth_error (chunks p) n = Some c ->
  currentChunkIndex p = chunk_index c ->
  successor p = nth_error (chunks p) (S n).
Proof.
  intros Hasc Hn Hcur. unfold successor.
  rewrite Hcur, (findIndex_nth _ _ _ Hasc Hn).
  destruct (nth_error (chunks p) (S n)) as [next |] eqn:E.
  - assert (S n < List.length (chunks p))%nat as Hlen
        by (apply nth_error_Some; congruence).
    assert ((0 <=? Z.of_nat n)%Z
            && (Z.of_nat n <? Z.of_nat (List.length (chunks p)) - 1)%Z
            = true) as ->.
    { apply andb_true_intro. split;
        [apply Z.leb_le | apply Z.ltb_lt]; lia. }
    rewrite at_index_succ. exact E.
  - apply nth_error_None in E.
    assert ((Z.of_nat n <? Z.of_nat (List.length (chunks p)) - 1)%Z = false)
      as -> by (apply Z.ltb_ge; lia).
    rewrite andb_false_r. reflexivity.
Qed.

(** With an episode loaded [onEnded] stops inside [addToHistory]: the history
    has been stored, the player state is as it was, and neither the
    auto-advance nor the completion branch is reached. *)
Lemma onEnded_stops (p : Player) (ep : Episode.t) :
  currentEpisode p = Some ep ->
  onEnded p = (p, [AddToHistory (Episode.id ep) 100], Thrown "state.emit").
Proof.
  intros Hep. unfold onEnded. rewrite Hep. reflexivity.
Qed.

(** [nextChunk] away from the last chunk: the position being left is saved,
    the cursor moves to the next chunk of the sequence and playback is
    started again. *)
Lemma nextChunk_advance (p : Player) (ep : Episode.t) (next : Chunk) :
  Loaded p -> currentEpisode p = Some ep -> successor p = Some next ->
  In next (chunks p)
  /\ nextChunk p
     = (set_audio (Some (loadMedia next))
          (set_currentChunkIndex (chunk_index next) p),
        savePosition None p
        ++ [MediaLoad (Episode.id ep) (chunk_index next); MediaPlay]).
Proof.
  intros L Hep Hnext.
  assert (In next (chunks p)) as Hin.
  { unfold successor in Hnext.
    destruct (_ && _); [| discriminate].
    eapply at_index_In. exact Hnext. }
  split; [exact Hin |].
  unfold nextChunk. fold (successor p). rewrite Hnext.
  rewrite (loadChunk_present p next ep Hep (loaded_ascending p L) Hin).
  reflexivity.
Qed.

Lemma nextChunk_last (p : Player) : successor p = None -> nextChunk p = (p, []).
Proof.
  intros Hnone. unfold nextChunk. fold (successor p). rewrite Hnone.
  reflexivity.
Qed.

Lemma onEnded_Loaded (p : Player) : Loaded p -> Loaded (fst (fst (onEnded p))).
Proof.
  intros L.
  destruct (currentEpisode p) as [ep |] eqn:Hep;
    [| exfalso; apply (loaded_episode p L); exact Hep].
  rewrite (onEnded_stops p ep Hep). exact L.
Qed.

(** [nextChunk] and [prevChunk] keep the state well formed. *)
Lemma nextChunk_Loaded (p : Player) : Loaded p -> Loaded (fst (nextChunk p)).
Proof.
  intros L.
  destruct (currentEpisode p) as [ep |] eqn:Hep;
    [| exfalso; apply (loaded_episode p L); exact Hep].
  unfold nextChunk. fold (successor p).
  destruct (successor p) as [next |] eqn:Hs; [| exact L].
  assert (In next (chunks p)) as Hin.
  { unfold successor in Hs.
    destruct (_ && _); [| discriminate]. eapply at_index_In. exact Hs. }
  rewrite (loadChunk_present p next ep Hep (loaded_ascending p L) Hin).
  pose proof (Loaded_nonneg p next L Hin) as Hnn.
  eapply (Loaded_move p next); try reflexivity; try assumption.
  cbn. fold (chunkDur next). lra.
Qed.

Lemma prevChunk_Loaded (p : Player) : Loaded p -> Loaded (fst (prevChunk p)).
Proof.
  intros L.
  destruct (currentEpisode p) as [ep |] eqn:Hep;
    [| exfalso; apply (loaded_episode p L); exact Hep].
  unfold prevChunk.
  set (idx := findIndex (hasIndex (currentChunkIndex p)) (chunks p)).
  destruct (0 <? idx)%Z; [| exact L].
  destruct (at_index (chunks p) (idx - 1)) as [prev |] eqn:Hs; [| exact L].
  pose proof (at_index_In _ _ _ Hs) as Hin.
  rewrite (loadChunk_present p prev ep Hep (loaded_ascending p L) Hin).
  pose proof (Loaded_nonneg p prev L Hin) as Hnn.
  eapply (Loaded_move p prev); try reflexivity; try assumption.
  cbn. fold (chunkDur prev). lra.
Qed.

(** One manual advance from position [n] of the sequence to position [n+1]. *)
Lemma nextChunk_step (p : Player) (n : nat) (c next : Chunk) :
  Loaded p -> nth_error (chunks p) n = Some c ->
  currentChunkIndex p = chunk_index c ->
  nth_error (chunks p) (S n) = Some next ->
  let p' := fst (nextChunk p) in
  Loaded p' /\ chunks p' = chunks p
  /\ currentChunkIndex p' = chunk_index next
  /\ ~ In (Toast "Episode complete!" "success") (snd (nextChunk p)).
Proof.
  intros L Hn Hcur Hnext p'.
  destruct (currentEpisode p) as [ep |] eqn:Eep;
    [| exfalso; apply (loaded_episode _ L); exact Eep].
  assert (successor p = Some next) as Hs.
  { rewrite (successor_at p n c); try assumption.
    apply (loaded_ascending p L). }
  split; [apply nextChunk_Loaded; exact L |].
  subst p'.
  destruct (nextChunk_advance p ep next L Eep Hs) as [_ ->].
  unfold savePosition. rewrite Eep.
  cbn. repeat split; try assumption.
  intros [H | [H | [H | []]]]; discriminate.
Qed.

(** The manual path over three chunks: from the first chunk [nextChunk] moves
    the cursor to the second and then to the third, and on the third it
    returns without doing anything. *)
Lemma nextChunk_through_three_chunks (p : Player) (c0 c1 c2 : Chunk) :
  Loaded p -> chunks p = [c0; c1; c2] ->
  currentChunkIndex p = chunk_index c0 ->
  let n1 := nextChunk p in
  let n2 := nextChunk (fst n1) in
  let n3 := nextChunk (fst n2) in
  currentChunkIndex (fst n1) = chunk_index c1
  /\ currentChunkIndex (fst n2) = chunk_index c2
  /\ n3 = (fst n2, []).
Proof.
  intros L Hcs Hcur n1 n2 n3.
  destruct (nextChunk_step p 0 c0 c1 L) as (L1 & Hcs1 & Hcur1 & _);
    try (rewrite Hcs; reflexivity); [exact Hcur |].
  fold n1 in L1, Hcs1, Hcur1.
  destruct (nextChunk_step (fst n1) 1 c1 c2 L1) as (L2 & Hcs2 & Hcur2 & _);
    try (rewrite Hcs1, Hcs; reflexivity); [exact Hcur1 |].
  fold n2 in L2, Hcs2, Hcur2.
  repeat split; try assumption.
  apply nextChunk_last.
  rewrite (successor_at (fst n2) 2 c2); try assumption.
  - rewrite Hcs2, Hcs1, Hcs. reflexivity.
  - apply (loaded_ascending _ L2).
  - rewrite Hcs2, Hcs1, Hcs. reflexivity.
Qed.

(** C7: the auto-advance does not step through the chunks.  On the scenario
    episode (ready chunks 0, 1 and 2, cursor on chunk 0) the [ended] handler
    [onEnded] stores the history entry and then stops at the call of
    [state.emit], a function state.js does not export: the state is returned
    as it was, so the cursor is still on chunk 0, chunk 1 is not loaded and
    playback is not started again.  On the last chunk it stops at the same
    call, so "Episode complete!" is never announced.  The manual
    [nextChunk], which does not touch the history, performs the transitions
    0 -> 1 -> 2 and does nothing on the last chunk. *)
Theorem C7_onEnded_stops_before_advancing :
  let ended := onEnded scenarioPlayer in
  let n1 := nextChunk scenarioPlayer in
  let n2 := nextChunk (fst n1) in
  let n3 := nextChunk (fst n2) in
  chunks scenarioPlayer = scenarioChunks
  /\ currentChunkIndex scenarioPlayer = 0%Z
  /\ ended = (scenarioPlayer, [AddToHistory "ep" 100], Thrown "state.emit")
  /\ currentChunkIndex (fst (fst ended)) = 0%Z
  /\ currentChunkIndex (fst n1) = 1%Z
  /\ currentChunkIndex (fst n2) = 2%Z
  /\ n3 = (fst n2, [])
  /\ onEnded (fst n2)
     = (fst n2, [AddToHistory "ep" 100], Thrown "state.emit").
Proof.
  cbv zeta.
  destruct (nextChunk_through_three_chunks scenarioPlayer
              (readyChunk 0 100) (readyChunk 1 50) (readyChunk 2 30)
              scenarioPlayer_Loaded eq_refl eq_refl)
    as (H1 & H2 & H3).
  repeat split; try assumption; try reflexivity.
Qed.

(** ** C8: loading the chunk list *)

Lemma loadEpisode_chunks (episode : Episode.t) (startChunk : option Z)
    (p0 : Player) :
  chunks (fst (loadEpisode (inr episode) startChunk p0))
  = readyChunks episode.
Proof.
  destruct (readyChunks episode) as [| first rest] eqn:Hready.
  - unfold loadEpisode. fold (readyChunks episode). rewrite Hready.
    reflexivity.
  - destruct (loadEpisode_ready episode startChunk p0 first rest Hready)
      as (c & _ & ->).
    reflexivity.
Qed.

(** With no ready chunk [loadEpisode] stops after replacing the episode and
    the (empty) chunk list. *)
Lemma loadEpisode_empty (episode : Episode.t) (startChunk : option Z)
    (p0 : Player) :
  readyChunks episode = [] ->
  loadEpisode (inr episode) startChunk p0
  = (set_chunks [] (set_currentEpisode (Some episode) p0),
     [Toast "No ready chunks to play" "error"]).
Proof.
  intros Hready. unfold loadEpisode. fold (readyChunks episode).
  rewrite Hready. reflexivity.
Qed.

Lemma StronglySorted_filter {A : Type} (R : A -> A -> Prop) (f : A -> bool)
    (l : list A) :
  StronglySorted R l -> StronglySorted R (filter f l).
Proof.
  induction 1 as [| x rest Hs IH Hall]; simpl; [constructor |].
  destruct (f x); [| exact IH].
  constructor; [exact IH |].
  rewrite Forall_forall in *. intros y Hy.
  apply filter_In in Hy. apply Hall, Hy.
Qed.

(** C8 fails as stated: the load keeps the ready chunks in the order of the
    source list and never sorts; from the raw list with indices 1, 0 the
    loaded sequence has indices 1, 0, which is not ascending. *)
Lemma C8_load_keeps_source_order :
  let p := fst (loadEpisode (inr descendingEpisode) None initial) in
  map chunk_index (chunks p) = [1%Z; 0%Z] /\ ~ ascending (chunks p).
Proof.
  split; [reflexivity |].
  intros H. change (ascending [readyChunk 1 50; readyChunk 0 100]) in H.
  apply ascending_inv in H. destruct H as [_ H].
  inversion H as [| ? ? Hlt _]. simpl in Hlt. lia.
Qed.

(** C8, amended: the load keeps exactly the chunks whose status is ready, in
    the order of the raw list (so in ascending index order whenever the raw
    list is ascending; it does not sort); if no chunk is ready it reports
    the error "No ready chunks to play" and returns with the cursor, the
    media element, the elapsed time and the total left as they were. *)
Theorem C8_load_filters_ready_in_source_order (episode : Episode.t)
    (startChunk : option Z) (p0 : Player) :
  let raw := match Episode.chunks episode with
             | Some cs => cs
             | None => []
             end in
  let result := loadEpisode (inr episode) startChunk p0 in
  let p := fst result in
  (forall c, In c (chunks p) <-> In c raw /\ status c = "ready"%string)
  /\ chunks p = filter isReady raw
  /\ (forall R : Chunk -> Chunk -> Prop,
        StronglySorted R raw -> StronglySorted R (chunks p))
  /\ (ascending raw -> ascending (chunks p))
  /\ ((forall c, In c raw -> status c <> "ready"%string) ->
      snd result = [Toast "No ready chunks to play" "error"]
      /\ currentChunkIndex p = currentChunkIndex p0
      /\ audio p = audio p0
      /\ currentEpisodeTime p = currentEpisodeTime p0
      /\ totalEpisodeDuration p = totalEpisodeDuration p0).
Proof.
  intros raw result p.
  assert (chunks p = filter isReady raw) as Hcs
      by apply loadEpisode_chunks.
  split.
  { intros c. rewrite Hcs, filter_In. unfold isReady.
    rewrite String.eqb_eq. reflexivity. }
  split; [exact Hcs |].
  split; [intros R HR; rewrite Hcs; apply StronglySorted_filter, HR |].
  split; [intros HR; rewrite Hcs; apply StronglySorted_filter, HR |].
  intros Hnone.
  assert (readyChunks episode = []) as Hempty.
  { unfold readyChunks. fold raw.
    destruct (filter isReady raw) as [| c rest] eqn:E; [reflexivity |].
    assert (In c (filter isReady raw)) as Hin by (rewrite E; left; reflexivity).
    apply filter_In in Hin. destruct Hin as [Hin Hr].
    unfold isReady in Hr. apply String.eqb_eq in Hr.
    exfalso. apply (Hnone c Hin Hr). }
  subst p result. rewrite (loadEpisode_empty _ _ _ Hempty).
  repeat split.
Qed.

Lemma C8_load_filters_ready_in_source_order_witness :
  let result := loadEpisode (inr pendingEpisode) None scenarioPlayer in
  snd result = [Toast "No ready chunks to play" "error"]
  /\ currentChunkIndex (fst result) = currentChunkIndex scenarioPlayer
  /\ audio (fst result) = audio scenarioPlayer
  /\ currentEpisodeTime (fst result) = currentEpisodeTime scenarioPlayer
  /\ totalEpisodeDuration (fst result) = totalEpisodeDuration scenarioPlayer.
Proof.
  destruct (C8_load_filters_ready_in_source_order pendingEpisode None
              scenarioPlayer) as (_ & _ & _ & _ & H).
  apply H. intros c [<- | []]. discriminate.
Defined.

(** ** C9: resuming *)

(** C9 fails as stated: resuming the scenario episode at the persisted
    position (chunk 5, 20 s), where no chunk has index 5, falls back to
    chunk 0 but keeps the persisted offset of 20 s instead of 0, and nothing
    is reported: the only effects are the media load and the play request. *)
Lemma C9_fallback_keeps_offset_and_is_silent :
  let episode := scenarioEpisode (Some 5%Z) (Some 20) in
  let result := loadEpisode (inr episode) None initial in
  find (hasIndex 5) (readyChunks episode) = None
  /\ currentChunkIndex (fst result) = 0%Z
  /\ cursorOffset (fst result) == 20
  /\ ~ cursorOffset (fst result) == 0
  /\ snd result = [MediaLoad "ep" 0; MediaPlay].
Proof.
  vm_compute. repeat split; try reflexivity. discriminate.
Qed.

(** C9, amended: when the requested chunk index is absent from the loaded
    ready-chunk sequence, the resume falls back to the first ready chunk and
    does not fail; the fallback is silent (no warning or other notice is
    reported).  When the requested chunk index is present, the cursor
    afterwards holds exactly the requested chunk index and, for an offset
    inside that chunk, the requested offset. *)
Theorem C9_resume_falls_back_silently (episode : Episode.t)
    (startChunk : option Z) (p0 : Player) (first : Chunk)
    (rest : list Chunk) :
  readyChunks episode = first :: rest ->
  let result := loadEpisode (inr episode) startChunk p0 in
  let p := fst result in
  let requested := requestedChunk episode startChunk in
  let offset := requestedOffset episode startChunk in
  (forall message kind, ~ In (Toast message kind) (snd result))
  /\ currentEpisode p = Some episode
  /\ (find (hasIndex requested) (readyChunks episode) = None ->
      currentChunkIndex p = chunk_index first)
  /\ (forall c,
        find (hasIndex requested) (readyChunks episode) = Some c ->
        currentChunkIndex p = requested
        /\ (0 <= offset <= chunkDur c -> cursorOffset p == offset)).
Proof.
  intros Hready result p requested offset.
  destruct (loadEpisode_ready episode startChunk p0 first rest Hready)
    as (c & Hc & Heq).
  subst p result. rewrite Heq. cbn [fst snd].
  rewrite Hready.
  split.
  { intros m k [H | [H | []]]; discriminate. }
  split; [reflexivity |].
  unfold resolvedChunk in *. fold requested in Hc |- *.
  split.
  - intros Habsent. cbn [currentChunkIndex].
    apply findIndex_negative in Habsent. rewrite Habsent. reflexivity.
  - intros c' Hpresent. cbn [currentChunkIndex audio cursorOffset].
    assert ((findIndex (hasIndex requested) (first :: rest) <? 0)%Z = false)
      as Hfound.
    { destruct (findIndex (hasIndex requested) (first :: rest) <? 0)%Z eqn:E;
        [| reflexivity].
      apply findIndex_negative in E. congruence. }
    rewrite Hfound in Hc |- *.
    split; [reflexivity |].
    assert (c' = c) as -> by congruence.
    intros Hrange. subst offset. unfold requestedOffset in *.
    unfold cursorOffset. cbn [audio].
    destruct (restoresPosition episode startChunk).
    + rewrite seekMedia_currentTime.
      change (duration (loadMedia c)) with (chunkDur c).
      apply clamp_inside. exact Hrange.
    + reflexivity.
Qed.

Lemma C9_resume_falls_back_silently_witness :
  let episode := scenarioEpisode (Some 1%Z) (Some 20) in
  let p := fst (loadEpisode (inr episode) None initial) in
  currentChunkIndex p = 1%Z /\ cursorOffset p == 20.
Proof.
  destruct (C9_resume_falls_back_silently
              (scenarioEpisode (Some 1%Z) (Some 20)) None initial
              (readyChunk 0 100) [readyChunk 1 50; readyChunk 2 30] eq_refl)
    as (_ & _ & _ & H).
  destruct (H (readyChunk 1 50) eq_refl) as [Hidx Hoff].
  split; [exact Hidx |].
  apply Hoff. vm_compute. split; discriminate.
Defined.

(** ** C10: the persisted percentage *)

(** C10: every playback-position payload that [savePosition] sends has
    [percent_listened] at most 100, whatever the cursor, the number of
    chunks and the forced percentage. *)
Theorem C10_percent_listened_at_most_100 (p : Player) (forcePct : option Q)
    (episode_id : string) (body : Playback.t) :
  In (SavePlayback episode_id body) (savePosition forcePct p) ->
  Playback.percent_listened body <= 100.
Proof.
  unfold savePosition.
  destruct (currentEpisode p) as [ep |]; [| intros []].
  intros [H | []]. injection H as _ <-.
  cbn [Playback.percent_listened]. apply Q.le_min_l.
Qed.

Lemma C10_percent_listened_at_most_100_witness :
  Playback.percent_listened
    {| Playback.current_chunk_index := 0;
       Playback.position_secs := 0;
       Playback.percent_listened := Qmin 100 250 |} <= 100.
Proof.
  apply (C10_percent_listened_at_most_100 scenarioPlayer (Some 250) "ep").
  left. reflexivity.
Defined.

(** * Further properties *)

(** ** The reactive store *)

Lemma assign_same {A : Type} (m : string -> A) (key : string) (v : A) :
  assign m key v key = v.
Proof. unfold assign. rewrite String.eqb_refl. reflexivity. Qed.

Lemma assign_other {A : Type} (m : string -> A) (key key' : string) (v : A) :
  key' <> key -> assign m key v key' = m key'.
Proof.
  intros H. unfold assign.
  destruct (String.eqb key' key) eqn:E; [| reflexivity].
  apply String.eqb_eq in E. contradiction.
Qed.

Lemma notifyAll_app {V : Type} (throws : Listener -> bool)
    (l1 l2 : list Listener) (v : V) :
  notifyAll throws (l1 ++ l2) v
  = notifyAll throws l1 v ++ notifyAll throws l2 v.
Proof.
  induction l1 as [| fn rest IH]; simpl; [reflexivity |].
  rewrite IH. destruct (throws fn); simpl; rewrite ?app_assoc; reflexivity.
Qed.

Lemma notifyAll_In {V : Type} (throws : Listener -> bool)
    (fns : list Listener) (v w : V) (fn : Listener) :
  In (Notified fn w) (notifyAll throws fns v) <-> In fn fns /\ w = v.
Proof.
  induction fns as [| g rest IH]; simpl; [tauto |].
  rewrite in_app_iff, IH. split.
  - intros [H | [H | H]].
    + injection H as -> ->. tauto.
    + destruct (throws g); simpl in H; [| tauto].
      destruct H as [H | []]. discriminate.
    + tauto.
  - intros [[-> | H] ->]; [left; reflexivity | right; right; tauto].
Qed.

(** A value written with [set] is what [get] reads back for that key, until
    the next [set] of the key; the other keys and the listeners are left
    alone. *)
Theorem store_set_then_get {V : Type} (throws : Listener -> bool)
    (key : string) (v w : V) (s : Store V) :
  let s1 := fst (storeSet throws key v s) in
  storeGet key s1 = Some v
  /\ (forall key', key' <> key -> storeGet key' s1 = storeGet key' s)
  /\ storeGet key (fst (storeSet throws key w s1)) = Some w
  /\ (forall key' (u : V),
        key' <> key ->
        storeGet key (fst (storeSet throws key' u s1)) = Some v)
  /\ (forall key', listeners s1 key' = listeners s key').
Proof.
  unfold storeGet, storeSet. cbn [fst snd values listeners].
  repeat split; intros; rewrite ?assign_same; try reflexivity.
  - apply assign_other. assumption.
  - rewrite assign_other by congruence. apply assign_same.
Qed.

(** A listener added with [on] is called by every later [set] of its key,
    with the value set, after all listeners added before it, and also when
    some of those throw; a [set] of another key does not reach it. *)
Theorem store_on_then_set {V : Type} (throws : Listener -> bool)
    (key : string) (fn : Listener) (v : V) (s : Store V) :
  let s1 := storeOn key fn s in
  snd (storeSet throws key v s1)
  = snd (storeSet throws key v s)
    ++ Notified fn v :: (if throws fn then [ConsoleError fn] else [])
  /\ (forall key',
        key' <> key ->
        snd (storeSet throws key' v s1) = snd (storeSet throws key' v s))
  /\ (forall key', storeGet key' s1 = storeGet key' s).
Proof.
  unfold storeSet, storeOn, storeGet. cbn [fst snd values listeners].
  repeat split.
  - rewrite assign_same, notifyAll_app. cbn [notifyAll].
    rewrite app_nil_r. reflexivity.
  - intros key' H. rewrite assign_other by assumption. reflexivity.
Qed.

(** After the function returned by [on] has run, no [set] calls the listener
    any more, however often it had been added; the other listeners of the
    key are called as before, and those of other keys are untouched.
    Adding a listener that was not there and removing it again restores the
    listeners. *)
Theorem store_unsubscribe {V : Type} (throws : Listener -> bool)
    (key : string) (fn : Listener) (s : Store V) :
  let s1 := unsubscribe key fn s in
  (forall v w, ~ In (Notified fn w) (snd (storeSet throws key v s1)))
  /\ (forall g v w,
        g <> fn ->
        (In (Notified g w) (snd (storeSet throws key v s1))
         <-> In (Notified g w) (snd (storeSet throws key v s))))
  /\ (forall key', key' <> key -> listeners s1 key' = listeners s key')
  /\ (~ In fn (listeners s key) ->
      forall key',
        listeners (unsubscribe key fn (storeOn key fn s)) key'
        = listeners s key').
Proof.
  unfold storeSet, unsubscribe, storeOn. cbn [fst snd values listeners].
  split; [| split; [| split]].
  - intros v w H. rewrite assign_same in H. apply notifyAll_In in H.
    destruct H as [H _]. apply filter_In in H. destruct H as [_ H].
    rewrite Nat.eqb_refl in H. discriminate.
  - intros g v w Hg. rewrite assign_same, !notifyAll_In, filter_In.
    assert (negb (g =? fn)%nat = true) as ->
        by (apply negb_true_iff, Nat.eqb_neq; assumption).
    tauto.
  - intros key' H. apply assign_other. assumption.
  - intros Hfresh key'.
    destruct (String.eqb key' key) eqn:E.
    + apply String.eqb_eq in E. subst key'.
      rewrite !assign_same. rewrite filter_app. cbn [filter].
      rewrite Nat.eqb_refl. cbn [negb]. rewrite app_nil_r.
      apply forallb_filter_id. apply forallb_forall. intros g Hg.
      apply negb_true_iff, Nat.eqb_neq. intros ->. contradiction.
    + assert (key' <> key) as Hne
          by (intros ->; rewrite String.eqb_refl in E; discriminate).
      rewrite !assign_other by assumption. reflexivity.
Qed.

Lemma store_unsubscribe_witness :
  let s := storeOn "libraryTree" 7%nat
             (storeOn "libraryTree" 3%nat
                {| values := fun _ => @None nat; listeners := fun _ => [] |}) in
  listeners (unsubscribe "libraryTree" 9%nat (storeOn "libraryTree" 9%nat s))
            "libraryTree"
  = [3%nat; 7%nat].
Proof.
  destruct (store_unsubscribe (fun _ => false) "libraryTree" 9%nat
              (storeOn "libraryTree" 7%nat
                 (storeOn "libraryTree" 3%nat
                    {| values := fun _ => @None nat;
                       listeners := fun _ => [] |})))
    as (_ & _ & _ & H).
  apply H. cbn. intros [H1 | [H1 | []]]; discriminate.
Defined.

(** ** Time formatting *)

Lemma Qfloor_unique (x : Q) (z : Z) :
  inject_Z z <= x -> x < inject_Z (z + 1) -> Qfloor x = z.
Proof.
  intros Hlo Hhi.
  pose proof (Qfloor_le x) as H1. pose proof (Qlt_floor x) as H2.
  assert (inject_Z z < inject_Z (Qfloor x + 1)) as A by lra.
  assert (inject_Z (Qfloor x) < inject_Z (z + 1)) as B by lra.
  rewrite <- Zlt_Qlt in A, B. lia.
Qed.

Lemma padStart2_twoDigits (s : Z) :
  (0 <= s < 60)%Z -> padStart2 (toString s) = twoDigits s.
Proof.
  intros H.
  assert (exists n, (n < 60)%nat /\ s = Z.of_nat n) as (n & Hn & ->).
  { exists (Z.to_nat s). split; lia. }
  clear H.
  do 60 (destruct n as [| n]; [reflexivity |]).
  lia.
Qed.

(** For a positive time, [formatTime] prints the whole minutes, a colon and
    the seconds left over as exactly two digits: with [f] the whole seconds
    of the time, the minutes are [f / 60] and the seconds [f mod 60], always
    below 60.  Zero and values that are not finite numbers print "0:00". *)
Theorem formatTime_minutes_seconds (x : Q) :
  0 < x ->
  let f := Qfloor x in
  formatTime (Some x)
  = (toString (f / 60) ++ ":" ++ twoDigits (f mod 60))%string
  /\ (0 <= f mod 60 < 60)%Z
  /\ (60 * (f / 60) + f mod 60 = f)%Z
  /\ String.length (twoDigits (f mod 60)) = 2%nat
  /\ formatTime (Some 0) = "0:00"%string
  /\ formatTime None = "0:00"%string.
Proof.
  intros Hx f.
  pose proof (Z.mod_pos_bound f 60 ltac:(lia)) as Hs.
  pose proof (Z.div_mod f 60 ltac:(lia)) as Hdm.
  pose proof (Qfloor_le x) as Hlo. pose proof (Qlt_floor x) as Hhi.
  fold f in Hlo, Hhi.
  assert (inject_Z f == 60 * inject_Z (f / 60) + inject_Z (f mod 60)) as Hf.
  { rewrite Hdm at 1. rewrite inject_Z_plus, inject_Z_mult. reflexivity. }
  assert (inject_Z (f + 1) == inject_Z f + 1) as Hf1
      by (rewrite inject_Z_plus; reflexivity).
  assert (0 <= inject_Z (f mod 60) /\ inject_Z (f mod 60) + 1 <= 60)
    as [Hs0 Hs1].
  { split.
    - change 0 with (inject_Z 0). rewrite <- Zle_Qle. lia.
    - change 60 with (inject_Z 60). change 1 with (inject_Z 1).
      rewrite <- inject_Z_plus, <- Zle_Qle. lia. }
  assert (x / 60 * 60 == x) as Hdiv by (field).
  set (y := x / 60) in *.
  assert (Qfloor y = (f / 60)%Z) as Hm.
  { apply Qfloor_unique;
      [| rewrite inject_Z_plus; change (inject_Z 1) with 1]; lra. }
  assert (Qtrunc y = (f / 60)%Z) as Ht.
  { unfold Qtrunc.
    assert (Qle_bool 0 y = true) as -> by (apply Qle_bool_iff; lra).
    exact Hm. }
  assert (Qfloor (jsRem x 60) = (f mod 60)%Z) as Hr.
  { unfold jsRem. fold y. rewrite Ht.
    apply Qfloor_unique;
      [| rewrite inject_Z_plus; change (inject_Z 1) with 1]; lra. }
  subst y. split.
  { unfold formatTime.
    assert (isZero x = false) as -> by (apply isZero_false; lra).
    cbv zeta. rewrite Hm, Hr, (padStart2_twoDigits _ Hs). reflexivity. }
  split; [exact Hs |]. split; [lia |].
  split; [| split; reflexivity].
  rewrite <- (padStart2_twoDigits _ Hs).
  assert (exists n, (n < 60)%nat /\ (f mod 60)%Z = Z.of_nat n)
    as (n & Hn & ->).
  { exists (Z.to_nat (f mod 60)). split; lia. }
  do 60 (destruct n as [| n]; [reflexivity |]). lia.
Qed.

Lemma formatTime_minutes_seconds_witness :
  formatTime (Some (521 # 2)) = "4:20"%string.
Proof.
  destruct (formatTime_minutes_seconds (521 # 2) ltac:(reflexivity))
    as (H & _).
  exact H.
Defined.

(** ** Prefix times at the ends of the sequence *)

Lemma prefixTime_all_below (i : Z) (cs : list Chunk) :
  Forall (fun c => (chunk_index c < i)%Z) cs -> prefixTime i cs == totalOf cs.
Proof.
  induction 1 as [| c rest Hc _ IH]; simpl; [lra |].
  apply Z.ltb_lt in Hc. rewrite Hc, IH. reflexivity.
Qed.

(** [calculateEpisodeTime] at an index above every chunk of the sequence is
    the total duration computed by [loadEpisode], at an index not above any
    chunk it is 0, and for durations that are not negative it grows with the
    index and never exceeds the total. *)
Theorem calculateEpisodeTime_ends (cs : list Chunk) (i j : Z) :
  (Forall (fun c => (chunk_index c < i)%Z) cs ->
   calculateEpisodeTime cs i == sumDurations cs)
  /\ (Forall (fun c => (i <= chunk_index c)%Z) cs ->
      calculateEpisodeTime cs i == 0)
  /\ (nonnegDurations cs -> (i <= j)%Z ->
      0 <= calculateEpisodeTime cs i
      /\ calculateEpisodeTime cs i <= calculateEpisodeTime cs j
      /\ calculateEpisodeTime cs j <= sumDurations cs).
Proof.
  pose proof (calculateEpisodeTime_prefixTime cs i) as Hi.
  pose proof (calculateEpisodeTime_prefixTime cs j) as Hj.
  pose proof (sumDurations_totalOf cs) as Hs.
  split; [| split].
  - intros H. pose proof (prefixTime_all_below i cs H). lra.
  - intros H. pose proof (prefixTime_none_below i cs H). lra.
  - intros Hnn Hij.
    pose proof (prefixTime_nonneg cs i Hnn).
    pose proof (prefixTime_mono cs i j Hnn Hij).
    pose proof (prefixTime_le_total cs j Hnn).
    lra.
Qed.

Lemma calculateEpisodeTime_ends_witness :
  calculateEpisodeTime scenarioChunks 3 == sumDurations scenarioChunks.
Proof.
  destruct (calculateEpisodeTime_ends scenarioChunks 3 3) as (H & _).
  apply H. repeat constructor.
Defined.

(** ** Progress values and the scrubbers *)

Lemma totalOf_positive (cs : list Chunk) :
  knownDurations cs -> cs <> [] -> 0 < totalOf cs.
Proof.
  intros Hk Hne. destruct cs as [| c rest]; [contradiction |].
  inversion Hk as [| ? ? Hc Hrest]; subst. simpl.
  pose proof (totalOf_nonneg rest (knownDurations_nonneg rest Hrest)).
  cbv beta in Hc. lra.
Qed.

Lemma Loaded_total_positive (p : Player) :
  Loaded p -> knownDurations (chunks p) -> 0 < totalEpisodeDuration p.
Proof.
  intros L Hk.
  destruct (Loaded_nonempty p L) as (first & rest & Hcs).
  pose proof (loaded_total p L) as Htot.
  rewrite sumDurations_totalOf in Htot.
  assert (0 < totalOf (chunks p)) as H
      by (apply totalOf_positive; [exact Hk | rewrite Hcs; discriminate]).
  lra.
Qed.

Lemma percent_bounds (x y : Q) :
  0 < y -> 0 <= x <= y -> 0 <= x / y * 100 <= 100.
Proof.
  intros Hy [H0 H1].
  assert (0 <= x / y) as A.
  { apply Qle_shift_div_l; [exact Hy | lra]. }
  assert (x / y <= 1) as B.
  { apply Qle_shift_div_r; [exact Hy | lra]. }
  lra.
Qed.

Lemma scale_bounds (v d : Q) :
  0 <= v <= 100 -> 0 <= d -> 0 <= v / 100 * d <= d.
Proof.
  intros [H0 H1] Hd.
  assert (v / 100 * 100 == v) as Hv by field.
  set (r := v / 100) in *.
  split.
  - apply Qmult_le_0_compat; lra.
  - assert (r * d <= 1 * d) as H
        by (apply Qmult_le_compat_r; lra).
    lra.
Qed.

Lemma onTimeUpdate_keeps (p : Player) :
  audio (onTimeUpdate p) = audio p
  /\ chunks (onTimeUpdate p) = chunks p
  /\ currentChunkIndex (onTimeUpdate p) = currentChunkIndex p
  /\ totalEpisodeDuration (onTimeUpdate p) = totalEpisodeDuration p.
Proof.
  unfold onTimeUpdate. destruct (audio p) as [a |] eqn:E; [| tauto].
  destruct (isZero (duration a)); cbn; tauto.
Qed.

(** After a progress tick of a loaded episode with known durations the
    episode progress is a percentage between 0 and 100. *)
Theorem calculateEpisodeProgress_range (p : Player) :
  Loaded p -> knownDurations (chunks p) ->
  0 <= calculateEpisodeProgress (onTimeUpdate p) <= 100.
Proof.
  intros L Hk.
  pose proof (onTimeUpdate_Loaded p L) as L'.
  destruct (onTimeUpdate_bounds p L Hk) as (_ & Hb).
  assert (chunks (onTimeUpdate p) = chunks p) as Hcs
      by apply (onTimeUpdate_keeps p).
  assert (0 < totalEpisodeDuration (onTimeUpdate p)) as Hpos.
  { apply Loaded_total_positive; [exact L' | rewrite Hcs; exact Hk]. }
  unfold calculateEpisodeProgress.
  destruct (audio (onTimeUpdate p)); [| lra].
  assert (isZero (totalEpisodeDuration (onTimeUpdate p)) = false) as ->
      by (apply isZero_false; lra).
  apply percent_bounds; assumption.
Qed.

Lemma calculateEpisodeProgress_range_witness :
  0 <= calculateEpisodeProgress (onTimeUpdate scenarioAt95) <= 100.
Proof.
  apply (calculateEpisodeProgress_range scenarioAt95).
  - exact scenarioAt95_Loaded.
  - exact scenarioChunks_known.
Defined.

(** The chunk-level seek shared by the mini-player scrubber and the digit
    keys. *)
Lemma playerScrubberInput_cursor (p : Player) (v : Q) :
  Loaded p -> knownDurations (chunks p) -> 0 <= v <= 100 ->
  let p' := playerScrubberInput v p in
  let d := durationOf (chunks p) (currentChunkIndex p) in
  Loaded p'
  /\ chunks p' = chunks p
  /\ currentChunkIndex p' = currentChunkIndex p
  /\ cursorOffset p' == v / 100 * d
  /\ 0 <= cursorOffset p' <= d.
Proof.
  intros L Hk Hv p' d.
  destruct (Loaded_cursor_chunk p L) as (c & a & Hin & Hidx & Ha & Hd & Hr).
  assert (0 < chunkDur c) as Hpos.
  { unfold knownDurations in Hk. rewrite Forall_forall in Hk.
    apply Hk, Hin. }
  assert (d = chunkDur c) as Hdc.
  { subst d. rewrite <- Hidx.
    apply ascending_durationOf; [apply (loaded_ascending p L) | exact Hin]. }
  assert (d == chunkDur c) as Hdq by (rewrite Hdc; reflexivity).
  subst p'. unfold playerScrubberInput. rewrite Ha.
  assert (isZero (duration a) = false) as ->
      by (apply isZero_false; lra).
  pose proof (scale_bounds v (duration a) Hv ltac:(lra)) as Hs.
  assert (currentTime (seekMedia a (v / 100 * duration a))
          == v / 100 * duration a) as Hct.
  { rewrite seekMedia_currentTime. apply clamp_inside. exact Hs. }
  split.
  { apply (Loaded_move p c (seekMedia a (v / 100 * duration a)));
      try reflexivity; try assumption.
    - cbn. congruence.
    - rewrite Hct, seekMedia_duration. exact Hs. }
  split; [reflexivity |]. split; [reflexivity |].
  unfold cursorOffset. cbn [audio set_audio].
  rewrite Hct.
  split.
  - rewrite Hdq, Hd. reflexivity.
  - rewrite Hdq. lra.
Qed.

(** Setting the mini-player scrubber to a value between 0 and 100 moves the
    playback inside the current chunk to [(value / 100) * duration]: the
    offset lies inside the chunk, so the media element does not clamp it,
    value 0 is the start of the chunk and value 100 its end, and the
    cursor's chunk does not change.  The value the next progress tick writes
    to the scrubber is again a percentage between 0 and 100. *)
Theorem playerScrubber_seeks_within_chunk (p : Player) (v : Q) :
  Loaded p -> knownDurations (chunks p) -> 0 <= v <= 100 ->
  let p' := playerScrubberInput v p in
  let d := durationOf (chunks p) (currentChunkIndex p) in
  currentChunkIndex p' = currentChunkIndex p
  /\ cursorOffset p' == v / 100 * d
  /\ 0 <= cursorOffset p' <= d
  /\ (v == 0 -> cursorOffset p' == 0)
  /\ (v == 100 -> cursorOffset p' == d)
  /\ 0 <= chunkPercent (onTimeUpdate p') <= 100.
Proof.
  intros L Hk Hv p' d.
  destruct (playerScrubberInput_cursor p v L Hk Hv)
    as (L' & Hcs & H1 & H2 & H3).
  fold p' in L', Hcs, H1, H2, H3. fold d in H2, H3.
  split; [exact H1 |]. split; [exact H2 |]. split; [exact H3 |].
  split; [| split].
  - intros E. rewrite H2, E. field.
  - intros E. rewrite H2, E. field.
  - destruct (Loaded_cursor_chunk p' L')
      as (c & a & Hin & Hidx & Ha & Hd & Hr).
    assert (0 < chunkDur c) as Hpos.
    { unfold knownDurations in Hk. rewrite Forall_forall in Hk.
      apply Hk. rewrite <- Hcs. exact Hin. }
    unfold chunkPercent.
    destruct (onTimeUpdate_keeps p') as (-> & _). rewrite Ha.
    apply percent_bounds; lra.
Qed.

Lemma playerScrubber_seeks_within_chunk_witness :
  cursorOffset (playerScrubberInput 40 scenarioAt95) == 40
  /\ 0 <= chunkPercent (onTimeUpdate (playerScrubberInput 40 scenarioAt95))
     <= 100.
Proof.
  destruct (playerScrubber_seeks_within_chunk scenarioAt95 40
              scenarioAt95_Loaded scenarioChunks_known)
    as (_ & H1 & _ & _ & _ & H2).
  - split; discriminate.
  - split; [| exact H2]. rewrite H1. vm_compute. reflexivity.
Defined.

(** A digit key from 0 to 9 moves the playback to that many tenths of the
    current chunk: key 0 returns to the start of the chunk, no key reaches
    its end, and the cursor's chunk does not change. *)
Theorem digitKey_tenths (p : Player) (digit : Z) :
  Loaded p -> knownDurations (chunks p) -> (0 <= digit <= 9)%Z ->
  let p' := digitKey digit p in
  let d := durationOf (chunks p) (currentChunkIndex p) in
  currentChunkIndex p' = currentChunkIndex p
  /\ cursorOffset p' == inject_Z digit / 10 * d
  /\ cursorOffset p' < d
  /\ (digit = 0%Z -> cursorOffset p' == 0).
Proof.
  intros L Hk Hdigit p' d.
  assert (0 <= inject_Z (digit * 10) <= 100) as Hv.
  { split.
    - change 0 with (inject_Z 0). rewrite <- Zle_Qle. lia.
    - change 100 with (inject_Z 100). rewrite <- Zle_Qle. lia. }
  destruct (playerScrubberInput_cursor p (inject_Z (digit * 10)) L Hk Hv)
    as (_ & _ & H1 & H2 & _).
  change (playerScrubberInput (inject_Z (digit * 10)) p) with p' in H1, H2.
  fold d in H2.
  destruct (Loaded_cursor_chunk p L) as (c & a & Hin & Hidx & Ha & Hd & Hr).
  assert (0 < d) as Hpos.
  { subst d. rewrite <- Hidx.
    rewrite (ascending_durationOf _ _ (loaded_ascending p L) Hin).
    unfold knownDurations in Hk. rewrite Forall_forall in Hk.
    apply Hk, Hin. }
  assert (inject_Z (digit * 10) == inject_Z digit * 10) as Hten
      by (rewrite inject_Z_mult; reflexivity).
  assert (inject_Z (digit * 10) / 100 == inject_Z digit / 10) as Hfrac
      by (rewrite Hten; field).
  assert (0 <= inject_Z digit / 10 <= 9 # 10) as Hr10.
  { assert (0 <= inject_Z digit <= 9) as [A B].
    { split.
      - change 0 with (inject_Z 0). rewrite <- Zle_Qle. lia.
      - change 9 with (inject_Z 9). rewrite <- Zle_Qle. lia. }
    assert (inject_Z digit / 10 * 10 == inject_Z digit) as E by field.
    generalize dependent (inject_Z digit / 10).
    generalize dependent (inject_Z digit).
    intros z A B r E. split; lra. }
  split; [exact H1 |].
  assert (cursorOffset p' == inject_Z digit / 10 * d) as Hoff
      by (rewrite H2, Hfrac; reflexivity).
  split; [exact Hoff |]. split.
  - rewrite Hoff.
    assert (inject_Z digit / 10 * d <= (9 # 10) * d) as H
        by (apply Qmult_le_compat_r; lra).
    lra.
  - intros ->. rewrite Hoff.
    assert (inject_Z 0 / 10 == 0) as -> by reflexivity. lra.
Qed.

Lemma digitKey_tenths_witness :
  cursorOffset (digitKey 5 scenarioAt95) == 50.
Proof.
  destruct (digitKey_tenths scenarioAt95 5 scenarioAt95_Loaded
              scenarioChunks_known ltac:(lia)) as (_ & H & _).
  rewrite H. vm_compute. reflexivity.
Defined.

(** Setting the fullscreen scrubber to a percentage below 100 seeks to
    [(pct / 100) * total]: the cursor moves to the chunk of the sequence
    whose cumulative interval holds that time, at the offset left after
    taking away the durations of the chunks before it, which lies inside
    the chunk; the chunk list is not touched. *)
Theorem fsScrubber_seeks_into_chunk (p : Player) (pct : Q) :
  Loaded p -> knownDurations (chunks p) -> 0 <= pct < 100 ->
  let t := pct / 100 * totalEpisodeDuration p in
  let p' := fst (fsScrubberInput pct p) in
  chunks p' = chunks p
  /\ exists c,
       In c (chunks p)
       /\ currentChunkIndex p' = chunk_index c
       /\ calculateEpisodeTime (chunks p) (chunk_index c) <= t
       /\ t < calculateEpisodeTime (chunks p) (chunk_index c) + chunkDur c
       /\ cursorOffset p'
          == t - calculateEpisodeTime (chunks p) (chunk_index c).
Proof.
  intros L Hk [H0 H1] t p'.
  pose proof (Loaded_total_positive p L Hk) as Hpos.
  subst p'. rewrite (fsScrubberInput_seek p pct L) by lra.
  fold t.
  assert (0 <= t < totalEpisodeDuration p) as [Ht0 Ht1].
  { assert (pct / 100 * 100 == pct) as E by field.
    subst t. set (r := pct / 100) in *.
    split.
    - apply Qmult_le_0_compat; lra.
    - assert (r * totalEpisodeDuration p < 1 * totalEpisodeDuration p) as H
          by (apply Qmult_lt_compat_r; lra).
      lra. }
  destruct (Loaded_nonempty p L) as (first & rest & Hcs).
  destruct (seekEpisodeTime_cursor p t first rest L Hcs)
    as (H1' & _ & _ & H4 & a' & H5 & _ & H7).
  split; [exact H1' |].
  set (c := findTargetChunk (chunks p) 0 t first) in *.
  pose proof (loaded_total p L) as Htot.
  rewrite sumDurations_totalOf in Htot.
  destruct (findTargetChunk_interval (chunks p) 0 t first
              (loaded_ascending p L) (loaded_durations p L))
    as (Hin & Hlo & Hhi); [intros _; exact Ht0 | lra |].
  fold c in Hin, Hlo, Hhi.
  specialize (Hlo Ht0).
  pose proof (calculateEpisodeTime_prefixTime (chunks p) (chunk_index c))
    as Hpre.
  exists c. split; [exact Hin |]. split; [exact H4 |].
  split; [lra |]. split; [lra |].
  unfold cursorOffset. rewrite H5, H7, Hpre.
  apply clamp_inside. lra.
Qed.

Lemma fsScrubber_seeks_into_chunk_witness :
  currentChunkIndex (fst (fsScrubberInput 60 scenarioPlayer)) = 1%Z
  /\ cursorOffset (fst (fsScrubberInput 60 scenarioPlayer)) == 8.
Proof.
  destruct (fsScrubber_seeks_into_chunk scenarioPlayer 60
              scenarioPlayer_Loaded scenarioChunks_known)
    as (_ & c & Hin & Hcur & Hlo & Hhi & Hoff).
  - split; [discriminate | reflexivity].
  - assert (c = readyChunk 1 50) as ->.
    { destruct Hin as [<- | [<- | [<- | []]]].
      + exfalso. vm_compute in Hhi. discriminate Hhi.
      + reflexivity.
      + exfalso. vm_compute in Hlo. apply Hlo. reflexivity. }
    split; [exact Hcur |]. rewrite Hoff. vm_compute. reflexivity.
Defined.

(** ** Saving and resuming the position *)

(** The cursor of a loaded state sits at a position of the sequence. *)
Lemma Loaded_position (p : Player) :
  Loaded p ->
  exists k c a,
    nth_error (chunks p) k = Some c
    /\ (k < List.length (chunks p))%nat
    /\ chunk_index c = currentChunkIndex p
    /\ findIndex (hasIndex (currentChunkIndex p)) (chunks p) = Z.of_nat k
    /\ audio p = Some a /\ duration a == chunkDur c
    /\ 0 <= currentTime a <= duration a.
Proof.
  intros L.
  destruct (Loaded_cursor_chunk p L) as (c & a & Hin & Hidx & Ha & Hd & Hr).
  destruct (In_nth_error _ _ Hin) as (k & Hk).
  exists k, c, a. repeat split; try tauto.
  - apply nth_error_Some. congruence.
  - rewrite <- Hidx. apply findIndex_nth; [| exact Hk].
    apply (loaded_ascending p L).
Qed.

(** [savePosition()] on a loaded episode with known durations sends the
    cursor (chunk index and offset) and a percentage that needs no capping:
    with the cursor on the k-th of n chunks (counting from 0) it lies
    between 100 k / n and 100 (k + 1) / n, so between 0 and 100. *)
Theorem savePosition_percent_by_position (p : Player) :
  Loaded p -> knownDurations (chunks p) ->
  exists episode_id body,
    savePosition None p = [SavePlayback episode_id body]
    /\ Playback.current_chunk_index body = currentChunkIndex p
    /\ Playback.position_secs body = cursorOffset p
    /\ 0 <= Playback.percent_listened body <= 100
    /\ (let k := inject_Z
                   (findIndex (hasIndex (currentChunkIndex p)) (chunks p)) in
        let n := inject_Z (Z.of_nat (List.length (chunks p))) in
        k / n * 100 <= Playback.percent_listened body
        /\ Playback.percent_listened body <= (k + 1) / n * 100).
Proof.
  intros L Hk.
  destruct (Loaded_position p L)
    as (k & c & a & Hn & Hlen & Hidx & Hfind & Ha & Hd & Hr).
  destruct (currentEpisode p) as [ep |] eqn:Hep;
    [| exfalso; apply (loaded_episode p L); exact Hep].
  assert (0 < chunkDur c) as Hpos.
  { unfold knownDurations in Hk. rewrite Forall_forall in Hk.
    apply Hk. eapply nth_error_In. exact Hn. }
  unfold savePosition. rewrite Hep, Ha, Hfind.
  assert (isZero (duration a) = false) as ->
      by (apply isZero_false; lra).
  assert ((Z.of_nat (List.length (chunks p)) >? 0)%Z = true) as ->
      by (apply Z.gtb_lt; lia).
  eexists _, _. split; [reflexivity |].
  cbn [Playback.current_chunk_index Playback.position_secs
       Playback.percent_listened].
  unfold cursorOffset. rewrite Ha.
  split; [reflexivity |]. split; [reflexivity |].
  set (n := inject_Z (Z.of_nat (List.length (chunks p)))).
  set (kq := inject_Z (Z.of_nat k)).
  set (r := currentTime a / duration a).
  assert (0 < n) as Hn0.
  { subst n. change 0 with (inject_Z 0). rewrite <- Zlt_Qlt. lia. }
  assert (0 <= kq /\ kq + 1 <= n) as [Hk0 Hk1].
  { subst kq n. split.
    - change 0 with (inject_Z 0). rewrite <- Zle_Qle. lia.
    - change 1 with (inject_Z 1). rewrite <- inject_Z_plus, <- Zle_Qle.
      lia. }
  assert (0 <= r <= 1) as [Hr0 Hr1].
  { subst r. split.
    - apply Qle_shift_div_l; lra.
    - apply Qle_shift_div_r; lra. }
  assert (forall x, x / n * n == x) as Hdiv by (intros x; field; lra).
  pose proof (Hdiv kq) as E1. pose proof (Hdiv (kq + r)) as E2.
  pose proof (Hdiv (kq + 1)) as E3.
  assert (kq / n <= (kq + r) / n) as A.
  { apply Qle_shift_div_l; [exact Hn0 | lra]. }
  assert ((kq + r) / n <= (kq + 1) / n) as B.
  { apply Qle_shift_div_l; [exact Hn0 | lra]. }
  assert (0 <= kq / n) as C by (apply Qle_shift_div_l; lra).
  assert ((kq + 1) / n <= 1) as D by (apply Qle_shift_div_r; lra).
  assert (Qmin 100 ((kq + r) / n * 100) == (kq + r) / n * 100) as Hmin.
  { apply Q.min_r. lra. }
  rewrite Hmin. repeat split; lra.
Qed.

Lemma savePosition_percent_by_position_witness :
  exists episode_id body,
    savePosition None scenarioAt95 = [SavePlayback episode_id body]
    /\ Playback.current_chunk_index body = currentChunkIndex scenarioAt95
    /\ Playback.position_secs body = cursorOffset scenarioAt95
    /\ 0 <= Playback.percent_listened body <= 100.
Proof.
  destruct (savePosition_percent_by_position scenarioAt95
              scenarioAt95_Loaded scenarioChunks_known)
    as (i & b & H1 & H2 & H3 & H4 & _).
  exists i, b. repeat split; tauto.
Defined.

(** Save and resume: when the position sent by [savePosition] comes back as
    the persisted position of the episode (same ready chunks), [loadEpisode]
    without a start chunk puts the cursor on the saved chunk at the saved
    offset. *)
Theorem save_then_resume (p p0 : Player) (forcePct : option Q)
    (episode_id : string) (body : Playback.t) (episode : Episode.t) :
  Loaded p ->
  In (SavePlayback episode_id body) (savePosition forcePct p) ->
  readyChunks episode = chunks p ->
  Episode.current_chunk_index episode
  = Some (Playback.current_chunk_index body) ->
  Episode.position_secs episode = Some (Playback.position_secs body) ->
  let resumed := fst (loadEpisode (inr episode) None p0) in
  currentChunkIndex resumed = currentChunkIndex p
  /\ cursorOffset resumed == cursorOffset p
  /\ chunks resumed = chunks p.
Proof.
  intros L Hsave Hready Hcur Hpos resumed.
  destruct (Loaded_cursor_chunk p L) as (c & a & Hin & Hidx & Ha & Hd & Hr).
  pose proof (loaded_ascending p L) as Hasc.
  assert (Playback.current_chunk_index body = currentChunkIndex p
          /\ Playback.position_secs body = currentTime a) as [Hb1 Hb2].
  { unfold savePosition in Hsave.
    destruct (currentEpisode p); [| destruct Hsave].
    destruct Hsave as [H | []]. injection H as _ <-.
    cbn. rewrite Ha. split; reflexivity. }
  destruct (Loaded_nonempty p L) as (first & rest & Hcs).
  rewrite Hcs in Hready.
  destruct (loadEpisode_ready episode None p0 first rest Hready)
    as (c' & Hc' & Heq).
  subst resumed. rewrite Heq. cbn [fst currentChunkIndex chunks].
  unfold requestedChunk, restoresPosition, resolvedChunk in *.
  rewrite Hcur, Hb1 in *. rewrite <- Hcs in *.
  assert (find (hasIndex (currentChunkIndex p)) (chunks p) = Some c) as Hfind.
  { rewrite <- Hidx. apply ascending_find; assumption. }
  assert ((findIndex (hasIndex (currentChunkIndex p)) (chunks p) <? 0)%Z
          = false) as Hfound.
  { destruct (findIndex (hasIndex (currentChunkIndex p)) (chunks p) <? 0)%Z
      eqn:E; [| reflexivity].
    apply findIndex_negative in E. congruence. }
  rewrite Hfound in *. rewrite Hfind in Hc'. injection Hc' as <-.
  split; [reflexivity |]. split; [| reflexivity].
  unfold cursorOffset. cbn [audio]. rewrite Ha, Hpos, Hb2.
  unfold truthy. cbn [orZero].
  destruct (isZero (currentTime a)) eqn:Ez; cbn [negb].
  - apply isZero_true in Ez. cbn. lra.
  - rewrite seekMedia_currentTime.
    change (duration (loadMedia c)) with (chunkDur c).
    apply clamp_inside. lra.
Qed.

Lemma save_then_resume_witness :
  let body := {| Playback.current_chunk_index := 0;
                 Playback.position_secs := 95;
                 Playback.percent_listened := Qmin 100 100 |} in
  let resumed :=
    fst (loadEpisode (inr (scenarioEpisode (Some 0%Z) (Some 95))) None
           initial) in
  currentChunkIndex resumed = currentChunkIndex scenarioAt95
  /\ cursorOffset resumed == cursorOffset scenarioAt95
  /\ chunks resumed = chunks scenarioAt95.
Proof.
  apply (save_then_resume scenarioAt95 initial (Some 100) "ep"
           {| Playback.current_chunk_index := 0;
              Playback.position_secs := 95;
              Playback.percent_listened := Qmin 100 100 |}
           (scenarioEpisode (Some 0%Z) (Some 95))).
  - exact scenarioAt95_Loaded.
  - left. reflexivity.
  - reflexivity.
  - reflexivity.
  - reflexivity.
Defined.

(** ** Moving between chunks *)

Lemma move_to_chunk_Loaded (p : Player) (c : Chunk) :
  Loaded p -> In c (chunks p) ->
  let p' := set_audio (Some (loadMedia c))
              (set_currentChunkIndex (chunk_index c) p) in
  Loaded p' /\ currentChunkIndex p' = chunk_index c /\ cursorOffset p' == 0
  /\ episodeTimeOf p' == calculateEpisodeTime (chunks p) (chunk_index c).
Proof.
  intros L Hin p'.
  pose proof (Loaded_nonneg p c L Hin) as Hnn.
  split.
  { apply (Loaded_move p c (loadMedia c)); try reflexivity; try assumption.
    cbn. fold (chunkDur c). lra. }
  split; [reflexivity |].
  unfold episodeTimeOf, cursorOffset. cbn. split; lra.
Qed.

Lemma prevChunk_back (p : Player) (ep : Episode.t) (m : nat)
    (c prev : Chunk) :
  Loaded p -> currentEpisode p = Some ep ->
  nth_error (chunks p) (S m) = Some c ->
  currentChunkIndex p = chunk_index c ->
  nth_error (chunks p) m = Some prev ->
  prevChunk p
  = (set_audio (Some (loadMedia prev))
       (set_currentChunkIndex (chunk_index prev) p),
     savePosition None p
     ++ [MediaLoad (Episode.id ep) (chunk_index prev); MediaPlay]).
Proof.
  intros L Hep Hc Hcur Hprev.
  pose proof (loaded_ascending p L) as Hasc.
  unfold prevChunk.
  rewrite Hcur, (findIndex_nth _ _ _ Hasc Hc).
  assert ((0 <? Z.of_nat (S m))%Z = true) as -> by (apply Z.ltb_lt; lia).
  assert (at_index (chunks p) (Z.of_nat (S m) - 1) = Some prev) as ->.
  { unfold at_index.
    destruct (Z.ltb_spec (Z.of_nat (S m) - 1) 0); [lia |].
    replace (Z.to_nat (Z.of_nat (S m) - 1)) with m by lia. exact Hprev. }
  rewrite (loadChunk_present p prev ep Hep Hasc (nth_error_In _ _ Hprev)).
  reflexivity.
Qed.

(** There is no wraparound between chunks: [prevChunk] on the first chunk
    and [nextChunk] on the last chunk change nothing and emit nothing (no
    save, no load, no play request). *)
Theorem prev_next_stop_at_the_ends (p : Player) (k : nat) (c : Chunk) :
  Loaded p -> nth_error (chunks p) k = Some c ->
  currentChunkIndex p = chunk_index c ->
  (k = 0%nat -> prevChunk p = (p, []))
  /\ (S k = List.length (chunks p) -> nextChunk p = (p, [])).
Proof.
  intros L Hk Hcur.
  pose proof (loaded_ascending p L) as Hasc.
  split.
  - intros ->. unfold prevChunk.
    rewrite Hcur, (findIndex_nth _ _ _ Hasc Hk). reflexivity.
  - intros Hlast. apply nextChunk_last.
    rewrite (successor_at p k c Hasc Hk Hcur).
    apply nth_error_None. lia.
Qed.

Lemma prev_next_stop_at_the_ends_witness :
  prevChunk scenarioPlayer = (scenarioPlayer, []).
Proof.
  destruct (prev_next_stop_at_the_ends scenarioPlayer 0 (readyChunk 0 100)
              scenarioPlayer_Loaded eq_refl eq_refl) as [H _].
  apply H. reflexivity.
Defined.

(** [nextChunk] away from the last chunk first saves the position it
    leaves, then loads the next chunk from its start and asks for playback;
    a [prevChunk] after it returns to the chunk it came from, at offset 0
    (the offset inside the chunk is not kept). *)
Theorem next_then_prev_returns (p : Player) (k : nat) (c next : Chunk) :
  Loaded p -> nth_error (chunks p) k = Some c ->
  currentChunkIndex p = chunk_index c ->
  nth_error (chunks p) (S k) = Some next ->
  let forward := nextChunk p in
  let back := prevChunk (fst forward) in
  currentChunkIndex (fst forward) = chunk_index next
  /\ cursorOffset (fst forward) == 0
  /\ (exists episode_id body,
        snd forward
        = [SavePlayback episode_id body;
           MediaLoad episode_id (chunk_index next); MediaPlay]
        /\ Playback.current_chunk_index body = currentChunkIndex p
        /\ Playback.position_secs body = cursorOffset p)
  /\ currentChunkIndex (fst back) = currentChunkIndex p
  /\ cursorOffset (fst back) == 0
  /\ Loaded (fst back).
Proof.
  intros L Hk Hcur Hnext forward back.
  pose proof (loaded_ascending p L) as Hasc.
  destruct (currentEpisode p) as [ep |] eqn:Hep;
    [| exfalso; apply (loaded_episode p L); exact Hep].
  assert (successor p = Some next) as Hs
      by (rewrite (successor_at p k c Hasc Hk Hcur); exact Hnext).
  destruct (nextChunk_advance p ep next L Hep Hs) as [Hin Hfw].
  destruct (move_to_chunk_Loaded p next L Hin) as (L1 & H1 & H2 & _).
  subst back forward. rewrite Hfw. cbn [fst snd].
  set (p1 := set_audio (Some (loadMedia next))
               (set_currentChunkIndex (chunk_index next) p)) in *.
  split; [exact H1 |]. split; [exact H2 |].
  split.
  { unfold savePosition. rewrite Hep.
    eexists _, _. cbn [app]. split; [reflexivity |].
    cbn. unfold cursorOffset. split; reflexivity. }
  assert (prevChunk p1
          = (set_audio (Some (loadMedia c))
               (set_currentChunkIndex (chunk_index c) p1),
             savePosition None p1
             ++ [MediaLoad (Episode.id ep) (chunk_index c); MediaPlay]))
    as Hback.
  { apply (prevChunk_back p1 ep k next c L1); try assumption; reflexivity. }
  rewrite Hback. cbn [fst].
  assert (In c (chunks p1)) as Hinc by (eapply nth_error_In; exact Hk).
  destruct (move_to_chunk_Loaded p1 c L1 Hinc) as (L2 & H3 & H4 & _).
  split; [rewrite H3; symmetry; exact Hcur |].
  split; [exact H4 | exact L2].
Qed.

Lemma next_then_prev_returns_witness :
  currentChunkIndex (fst (prevChunk (fst (nextChunk scenarioAt95))))
  = currentChunkIndex scenarioAt95
  /\ cursorOffset (fst (prevChunk (fst (nextChunk scenarioAt95)))) == 0.
Proof.
  destruct (next_then_prev_returns scenarioAt95 0 (readyChunk 0 100)
              (readyChunk 1 50) scenarioAt95_Loaded eq_refl eq_refl eq_refl)
    as (_ & _ & _ & H1 & H2 & _).
  split; assumption.
Defined.

(** A click on a queue item saves the position being left, then moves the
    cursor to the start of the clicked chunk, whichever chunk of the
    sequence it is.  The handler does not assign [currentEpisodeTime], which
    keeps the value it had; the next progress tick sets it to the sum of the
    durations of the chunks before the clicked one. *)
Theorem queueItemClick_jumps (p : Player) (c : Chunk) :
  Loaded p -> knownDurations (chunks p) -> In c (chunks p) ->
  let result := queueItemClick c p in
  Loaded (fst result)
  /\ currentChunkIndex (fst result) = chunk_index c
  /\ cursorOffset (fst result) == 0
  /\ currentEpisodeTime (fst result) = currentEpisodeTime p
  /\ currentEpisodeTime (onTimeUpdate (fst result))
     == calculateEpisodeTime (chunks p) (chunk_index c)
  /\ (exists episode_id body,
        snd result
        = [SavePlayback episode_id body;
           MediaLoad episode_id (chunk_index c); MediaPlay]
        /\ Playback.current_chunk_index body = currentChunkIndex p
        /\ Playback.position_secs body = cursorOffset p).
Proof.
  intros L Hk Hin result.
  destruct (currentEpisode p) as [ep |] eqn:Hep;
    [| exfalso; apply (loaded_episode p L); exact Hep].
  subst result. unfold queueItemClick.
  rewrite (loadChunk_present p c ep Hep (loaded_ascending p L) Hin).
  cbn [fst snd].
  destruct (move_to_chunk_Loaded p c L Hin) as (L1 & H1 & H2 & H3).
  split; [exact L1 |]. split; [exact H1 |]. split; [exact H2 |].
  split; [reflexivity |]. split.
  - destruct (onTimeUpdate_bounds _ L1 Hk) as (Ht & _).
    rewrite Ht. exact H3.
  - unfold savePosition. rewrite Hep.
    eexists _, _. cbn [app playAudio audio set_audio].
    split; [reflexivity |]. cbn. unfold cursorOffset. split; reflexivity.
Qed.

Lemma queueItemClick_jumps_witness :
  let clicked := fst (queueItemClick (readyChunk 2 30) scenarioAt95) in
  currentChunkIndex clicked = 2%Z
  /\ currentEpisodeTime clicked = currentEpisodeTime scenarioAt95
  /\ currentEpisodeTime (onTimeUpdate clicked) == 150.
Proof.
  destruct (queueItemClick_jumps scenarioAt95 (readyChunk 2 30)
              scenarioAt95_Loaded scenarioChunks_known)
    as (_ & H1 & _ & H2 & H3 & _).
  - right. right. left. reflexivity.
  - cbv zeta. split; [exact H1 |]. split; [exact H2 |].
    rewrite H3. vm_compute. reflexivity.
Defined.

(** The count the queue shows is the number of chunks after the cursor; it
    is 0 ("No chunks remaining") exactly when the cursor is on the last
    chunk, which is exactly when [nextChunk] returns without doing
    anything. *)
Theorem remainingInQueue_counts (p : Player) :
  Loaded p ->
  (0 <= remainingInQueue p < Z.of_nat (List.length (chunks p)))%Z
  /\ (remainingInQueue p = 0%Z <-> successor p = None)
  /\ (remainingInQueue p = 0%Z <-> nextChunk p = (p, [])).
Proof.
  intros L.
  destruct (Loaded_position p L)
    as (k & c & a & Hn & Hlen & Hidx & Hfind & Ha & Hd & Hr).
  pose proof (loaded_ascending p L) as Hasc.
  destruct (currentEpisode p) as [ep |] eqn:Hep;
    [| exfalso; apply (loaded_episode p L); exact Hep].
  pose proof (successor_at p k c Hasc Hn (eq_sym Hidx)) as Hs.
  unfold remainingInQueue. rewrite Hfind.
  assert (Z.of_nat (List.length (chunks p)) - Z.of_nat k - 1 = 0
          <-> successor p = None)%Z as Hiff.
  { rewrite Hs, nth_error_None. lia. }
  split; [lia |]. split; [exact Hiff |].
  rewrite Hiff. split.
  - apply nextChunk_last.
  - intros Hnext. destruct (successor p) as [next |] eqn:E; [| reflexivity].
    destruct (nextChunk_advance p ep next L Hep E) as [_ Heq].
    rewrite Heq in Hnext. unfold savePosition in Hnext. rewrite Hep in Hnext.
    discriminate Hnext.
Qed.

Lemma remainingInQueue_counts_witness :
  (0 <= remainingInQueue scenarioAt95 < 3)%Z
  /\ nextChunk scenarioAt95 <> (scenarioAt95, []).
Proof.
  destruct (remainingInQueue_counts scenarioAt95 scenarioAt95_Loaded)
    as (H & _ & H2).
  split; [exact H |].
  intros E. apply H2 in E. vm_compute in E. discriminate E.
Defined.

(** ** Subtitle synchronisation *)

Lemma findSentence_range (timings : list Q) (i : nat) (e t : Q) (cur : nat) :
  let r := findSentence timings i e t cur in
  (timings = [] /\ r = cur)
  \/ (timings <> [] /\ (i <= r < i + List.length timings)%nat).
Proof.
  revert i e cur. induction timings as [| tm rest IH]; intros i e cur.
  - left. split; reflexivity.
  - right. split; [discriminate |]. cbn [findSentence List.length].
    destruct (Qgtb (e + tm) t); [lia |].
    destruct (IH (S i) (e + tm) i) as [[-> H] | [_ H]]; cbv zeta in H.
    + rewrite H. simpl. lia.
    + lia.
Qed.

Lemma findSentence_past_end (timings : list Q) (i : nat) (e t : Q)
    (cur : nat) :
  Forall (fun tm => 0 <= tm) timings ->
  e + fold_right Qplus 0 timings <= t ->
  findSentence timings i e t cur
  = match timings with
    | [] => cur
    | _ => (i + List.length timings - 1)%nat
    end.
Proof.
  intros Hnn. revert i e cur.
  induction Hnn as [| tm rest Htm Hrest IH]; intros i e cur Ht.
  - reflexivity.
  - cbn [findSentence fold_right List.length] in *.
    assert (0 <= fold_right Qplus 0 rest) as Hsum.
    { clear IH Ht. induction Hrest as [| x r Hx _ IHr]; simpl; lra. }
    assert (Qgtb (e + tm) t = false) as -> by (apply Qgtb_false; lra).
    rewrite IH by lra.
    destruct rest; simpl; lia.
Qed.

(** The sentence index chosen for the subtitles always names one of the
    sentences: it is below the number of timings for every playback time,
    and at or past the estimated end of the last sentence it is the last
    sentence (the loop does not fall back to the first). *)
Theorem currentSentenceIndex_in_range (subtitleTimings : list Q) (t : Q) :
  subtitleTimings <> [] ->
  (currentSentenceIndex subtitleTimings t < List.length subtitleTimings)%nat
  /\ (Forall (fun tm => 0 <= tm) subtitleTimings ->
      fold_right Qplus 0 subtitleTimings <= t ->
      currentSentenceIndex subtitleTimings t
      = (List.length subtitleTimings - 1)%nat).
Proof.
  intros Hne. unfold currentSentenceIndex. split.
  - destruct (findSentence_range subtitleTimings 0 0 t 0)
      as [[H _] | [_ H]]; [contradiction |].
    cbv zeta in H. lia.
  - intros Hnn Ht.
    rewrite (findSentence_past_end subtitleTimings 0 0 t 0 Hnn) by lra.
    destruct subtitleTimings; [contradiction | simpl; lia].
Qed.

Lemma currentSentenceIndex_in_range_witness :
  let timings : list Q := [2; 4 # 5; 3] in
  (currentSentenceIndex timings 100%Q < 3)%nat.
Proof.
  destruct (currentSentenceIndex_in_range [2; 4 # 5; 3] 100) as [H _].
  - discriminate.
  - exact H.
Defined.

(** The sentence index never goes back as the playback time grows, for
    every pair of times, also past the end of the estimated timings. *)
Theorem currentSentenceIndex_monotone (subtitleTimings : list Q)
    (t1 t2 : Q) :
  t1 <= t2 ->
  (currentSentenceIndex subtitleTimings t1
   <= currentSentenceIndex subtitleTimings t2)%nat.
Proof.
  intros H12. unfold currentSentenceIndex.
  generalize 0%nat at 1 3 as i. generalize 0%nat as cur. generalize 0 as e.
  induction subtitleTimings as [| tm rest IH]; intros e cur i.
  - simpl. lia.
  - cbn [findSentence].
    destruct (Qgtb (e + tm) t2) eqn:E2.
    + apply Qgtb_true in E2.
      assert (Qgtb (e + tm) t1 = true) as -> by (apply Qgtb_true; lra).
      lia.
    + destruct (Qgtb (e + tm) t1) eqn:E1.
      * destruct (findSentence_range rest (S i) (e + tm) t2 i)
          as [[_ H] | [_ H]]; cbv zeta in H; lia.
      * apply IH.
Qed.

(** ** Swipe gestures *)

(** [handleSwipe] compares the time stamp taken at [touchstart], not the
    duration of the touch, with 500 ms: for every time stamp of at least
    500, as [Date.now()] gives, a swipe changes nothing, whatever its length
    and direction. *)
Theorem handleSwipe_needs_early_timestamp
    (startX endX startY endY touchStartTime : Q) (p : Player) :
  500 <= touchStartTime ->
  handleSwipe startX endX startY endY touchStartTime p = (p, []).
Proof.
  intros Hts. unfold handleSwipe.
  destruct (Qgtb (Qabs (endY - startY)) (Qabs (endX - startX)));
    [reflexivity |].
  assert (Qgtb 500 touchStartTime = false) as ->
      by (apply Qgtb_false; exact Hts).
  rewrite andb_false_r. reflexivity.
Qed.

Lemma handleSwipe_needs_early_timestamp_witness :
  handleSwipe 300 20 100 110 1700000000000 scenarioAt95 = (scenarioAt95, []).
Proof.
  apply (handleSwipe_needs_early_timestamp 300 20 100 110 1700000000000).
  discriminate.
Defined.

(** ** Mute *)

(** Muting sets the volume to 0 and unmuting restores the volume that was
    set before, so two toggles are a round trip for every volume but 0; a
    player muted at volume 0 comes back at full volume 1. *)
Theorem toggleMute_round_trip (m : Mixer) (v : Q) :
  volume m = Some v -> isMuted m = false ->
  let muted := fst (toggleMute m) in
  let restored := fst (toggleMute muted) in
  volume muted = Some 0 /\ isMuted muted = true
  /\ isMuted restored = false
  /\ (~ v == 0 -> volume restored = Some v)
  /\ (v == 0 -> volume restored = Some 1)
  /\ snd (toggleMute m) = [Toast "Muted" "info"]
  /\ snd (toggleMute muted) = [Toast "Unmuted" "info"].
Proof.
  intros Hv Hm. unfold toggleMute. rewrite Hv, Hm. cbn.
  repeat split.
  - intros Hnz. apply isZero_false in Hnz. rewrite Hnz. reflexivity.
  - intros Hz. apply isZero_true in Hz. rewrite Hz. reflexivity.
Qed.

Lemma toggleMute_round_trip_witness :
  volume (fst (toggleMute (fst (toggleMute
            {| volume := Some (3 # 5); isMuted := false;
               previousVolume := 1 |}))))
  = Some (3 # 5).
Proof.
  destruct (toggleMute_round_trip
              {| volume := Some (3 # 5); isMuted := false;
                 previousVolume := 1 |} (3 # 5) eq_refl eq_refl)
    as (_ & _ & _ & H & _).
  apply H. discriminate.
Defined.

Lemma currentSentenceIndex_monotone_witness :
  let timings : list Q := [2; 4 # 5; 3] in
  (currentSentenceIndex timings (5 # 2)
   <= currentSentenceIndex timings 100%Q)%nat.
Proof.
  apply (currentSentenceIndex_monotone [2; 4 # 5; 3] (5 # 2) 100).
  discriminate.
Defined.

(** ** Sleep timer *)

Lemma sleepTicks_inactive (k : nat) (r : Z) (p : Player) :
  sleepTicks k {| sleepTimerId := false; sleepTimerRemaining := r |} p
  = ({| sleepTimerId := false; sleepTimerRemaining := r |}, []).
Proof.
  induction k as [| k IH]; [reflexivity |].
  cbn [sleepTicks]. unfold sleepTick at 1. cbn [sleepTimerId].
  rewrite IH. reflexivity.
Qed.

Lemma sleepTicks_active (k : nat) (r : Z) (p : Player) :
  (Z.of_nat k < r)%Z ->
  sleepTicks k {| sleepTimerId := true; sleepTimerRemaining := r |} p
  = ({| sleepTimerId := true; sleepTimerRemaining := r - Z.of_nat k |}, []).
Proof.
  revert r. induction k as [| k IH]; intros r Hr.
  - cbn [sleepTicks Z.of_nat]. do 2 f_equal. lia.
  - cbn [sleepTicks]. unfold sleepTick at 1.
    cbn [sleepTimerId sleepTimerRemaining].
    assert ((r - 1 <=? 0)%Z = false) as -> by (apply Z.leb_gt; lia).
    rewrite IH by lia. cbv beta iota zeta. cbn [app].
    do 2 f_equal. lia.
Qed.

Lemma sleepTicks_add (a b : nat) (t : SleepTimer) (p : Player) :
  sleepTicks (a + b) t p
  = (fst (sleepTicks b (fst (sleepTicks a t p)) p),
     snd (sleepTicks a t p) ++ snd (sleepTicks b (fst (sleepTicks a t p)) p)).
Proof.
  revert t. induction a as [| a IH]; intros t.
  - cbn. destruct (sleepTicks b t p). reflexivity.
  - cbn [Nat.add sleepTicks].
    destruct (sleepTick t p) as [t1 e1]. rewrite IH.
    destruct (sleepTicks a t1 p) as [t2 e2]. cbn [fst snd].
    destruct (sleepTicks b t2 p) as [t3 e3]. cbn [fst snd].
    rewrite app_assoc. reflexivity.
Qed.

Lemma sleepTick_last (p : Player) :
  sleepTick {| sleepTimerId := true; sleepTimerRemaining := 1 |} p
  = ({| sleepTimerId := false; sleepTimerRemaining := 0 |}, sleepTimerEnd p).
Proof. reflexivity. Qed.

(** A sleep timer set to n seconds (n at least 1) replaces any running
    timer, stays silent for the first n - 1 ticks while counting down, and
    on the n-th tick pauses the media, saves the position and announces its
    end; after that it is cleared and further ticks do nothing. *)
Theorem sleepTimer_counts_down (n : Z) (t : SleepTimer) (p : Player) :
  (1 <= n)%Z ->
  let started := fst (setSleepTimer n t p) in
  started = {| sleepTimerId := true; sleepTimerRemaining := n |}
  /\ (forall k : nat,
        (Z.of_nat k < n)%Z ->
        sleepTicks k started p
        = ({| sleepTimerId := true;
              sleepTimerRemaining := n - Z.of_nat k |}, []))
  /\ (forall j : nat,
        sleepTicks (Z.to_nat n + j) started p
        = ({| sleepTimerId := false; sleepTimerRemaining := 0 |},
           sleepTimerEnd p)).
Proof.
  intros Hn started.
  assert (started = {| sleepTimerId := true; sleepTimerRemaining := n |})
    as Hst.
  { subst started. unfold setSleepTimer.
    assert ((n =? -1)%Z = false) as -> by (apply Z.eqb_neq; lia).
    reflexivity. }
  rewrite Hst. split; [reflexivity |]. split.
  - intros k Hk. apply sleepTicks_active. exact Hk.
  - intros j.
    replace (Z.to_nat n + j)%nat with (Z.to_nat (n - 1) + (1 + j))%nat by lia.
    rewrite sleepTicks_add.
    rewrite sleepTicks_active by lia. cbn [fst snd app].
    replace (n - Z.of_nat (Z.to_nat (n - 1)))%Z with 1%Z by lia.
    rewrite (sleepTicks_add 1 j). cbn [sleepTicks].
    rewrite sleepTick_last. cbn [fst snd].
    rewrite sleepTicks_inactive. cbn [fst snd].
    rewrite !app_nil_r. reflexivity.
Qed.

Lemma sleepTimer_counts_down_witness :
  sleepTicks 900
    (fst (setSleepTimer 900
            {| sleepTimerId := false; sleepTimerRemaining := 0 |}
            scenarioAt95))
    scenarioAt95
  = ({| sleepTimerId := false; sleepTimerRemaining := 0 |},
     sleepTimerEnd scenarioAt95).
Proof.
  destruct (sleepTimer_counts_down 900
              {| sleepTimerId := false; sleepTimerRemaining := 0 |}
              scenarioAt95 ltac:(lia)) as (_ & _ & H).
  exact (H 0%nat).
Defined.

(** "End of chapter" starts the timer with the media time left in the
    current chunk, [duration - currentTime], rounded up to whole seconds:
    the counter it starts from is not negative, not below that time and
    less than one above it.  (The counter then runs down once per second of
    wall-clock time, whatever the playback rate and whether or not the
    media is playing, so this is a statement about the starting value
    only.)  Without a loaded media element it only reports "No audio
    playing", and a timer that was running is cancelled. *)
Theorem sleepTimer_end_of_chapter (t : SleepTimer) (p : Player) :
  Loaded p -> knownDurations (chunks p) ->
  let started := fst (setSleepTimer (-1) t p) in
  let d := durationOf (chunks p) (currentChunkIndex p) in
  sleepTimerId started = true
  /\ (0 <= sleepTimerRemaining started)%Z
  /\ d - cursorOffset p <= inject_Z (sleepTimerRemaining started)
  /\ inject_Z (sleepTimerRemaining started) < d - cursorOffset p + 1
  /\ (forall q : Player,
        audio q = None ->
        setSleepTimer (-1) t q
        = ({| sleepTimerId := false;
              sleepTimerRemaining :=
                if sleepTimerId t then 0%Z else sleepTimerRemaining t |},
           [FromPlayer (Toast "No audio playing" "error")])).
Proof.
  intros L Hk started d.
  destruct (Loaded_cursor_chunk p L) as (c & a & Hin & Hidx & Ha & Hd & Hr).
  assert (0 < chunkDur c) as Hpos.
  { unfold knownDurations in Hk. rewrite Forall_forall in Hk.
    apply Hk, Hin. }
  assert (d == duration a) as Hdd.
  { subst d. rewrite <- Hidx,
      (ascending_durationOf _ _ (loaded_ascending p L) Hin), Hd.
    reflexivity. }
  subst started. unfold setSleepTimer. cbn [Z.eqb Z.opp Pos.eqb].
  rewrite Ha.
  assert (isZero (duration a) = false) as ->
      by (apply isZero_false; lra).
  cbn [fst sleepTimerId sleepTimerRemaining].
  unfold cursorOffset. rewrite Ha.
  pose proof (Qle_ceiling (duration a - currentTime a)) as Hc1.
  pose proof (Qceiling_lt (duration a - currentTime a)) as Hc2.
  assert (inject_Z (Qceiling (duration a - currentTime a) - 1)
          == inject_Z (Qceiling (duration a - currentTime a)) - 1) as E.
  { unfold Z.sub. rewrite inject_Z_plus. reflexivity. }
  split; [reflexivity |]. split.
  { assert (inject_Z (-1) < inject_Z (Qceiling (duration a - currentTime a)))
      as H by (change (inject_Z (-1)) with (-1); lra).
    rewrite <- Zlt_Qlt in H. lia. }
  split; [lra |]. split; [lra |].
  intros q Hq. unfold setSleepTimer. cbn [Z.eqb Z.opp Pos.eqb].
  rewrite Hq. unfold cancelSleepTimer.
  destruct t as [[|] r]; reflexivity.
Qed.

Lemma sleepTimer_end_of_chapter_witness :
  let started :=
    fst (setSleepTimer (-1)
           {| sleepTimerId := false; sleepTimerRemaining := 0 |}
           scenarioAt95) in
  sleepTimerId started = true /\ (0 <= sleepTimerRemaining started)%Z.
Proof.
  destruct (sleepTimer_end_of_chapter
              {| sleepTimerId := false; sleepTimerRemaining := 0 |}
              scenarioAt95 scenarioAt95_Loaded scenarioChunks_known)
    as (H1 & H2 & _).
  split; assumption.
Defined.

(** ** Playback history *)

Lemma addToHistory_shape (episode_id title : string)
    (percent_listened : option Q) (now : Z) (history : list HistoryEntry) :
  addToHistory episode_id title percent_listened now history
  = {| entry_id := episode_id; entry_title := title; playedAt := now;
       progress := orZero percent_listened |}
    :: firstn (MAX_HISTORY - 1)
         (filter (fun h => negb (String.eqb (entry_id h) episode_id))
            history).
Proof.
  unfold addToHistory.
  set (older := filter _ history). set (new := mkHistoryEntry _ _ _ _).
  destruct (MAX_HISTORY <? List.length (new :: older))%nat eqn:E.
  - reflexivity.
  - apply Nat.ltb_ge in E. cbn [List.length] in E.
    rewrite firstn_all2; [reflexivity |]. unfold MAX_HISTORY in *. lia.
Qed.

Lemma In_firstn {A : Type} (n : nat) (l : list A) (x : A) :
  In x (firstn n l) -> In x l.
Proof.
  revert n. induction l as [| y rest IH]; intros n H.
  - rewrite firstn_nil in H. exact H.
  - destruct n as [| n]; [destruct H |].
    cbn in H. destruct H as [-> | H]; [left; reflexivity |].
    right. apply (IH n). exact H.
Qed.

Lemma NoDup_firstn {A : Type} (n : nat) (l : list A) :
  NoDup l -> NoDup (firstn n l).
Proof.
  revert n. induction l as [| x rest IH]; intros n H.
  - rewrite firstn_nil. constructor.
  - destruct n as [| n]; [constructor |].
    inversion H as [| ? ? Hx Hrest]; subst. cbn. constructor.
    + intros Hin. apply Hx. apply (In_firstn n). exact Hin.
    + apply IH. exact Hrest.
Qed.

Lemma NoDup_map_filter {A B : Type} (f : A -> B) (g : A -> bool)
    (l : list A) :
  NoDup (map f l) -> NoDup (map f (filter g l)).
Proof.
  induction l as [| x rest IH]; intros H; [constructor |].
  cbn in H. inversion H as [| ? ? Hx Hrest]; subst.
  cbn. destruct (g x); [| apply IH; exact Hrest].
  cbn. constructor; [| apply IH; exact Hrest].
  intros Hin. apply Hx. apply in_map_iff in Hin.
  destruct Hin as (y & Hy & Hin). apply filter_In in Hin.
  apply in_map_iff. exists y. tauto.
Qed.

(** The stored history never holds more than 50 entries, the episode just
    played is its first entry with the time and progress given, and no
    other entry of the list has this episode's id, however many the stored
    list had. *)
Theorem addToHistory_newest_first_bounded (episode_id title : string)
    (percent_listened : option Q) (now : Z) (history : list HistoryEntry) :
  let result :=
    addToHistory episode_id title percent_listened now history in
  (List.length result <= MAX_HISTORY)%nat
  /\ hd_error result
     = Some {| entry_id := episode_id; entry_title := title;
               playedAt := now; progress := orZero percent_listened |}
  /\ (forall h, In h (tl result) ->
        entry_id h <> episode_id /\ In h history)
  /\ List.length
       (filter (fun h => String.eqb (entry_id h) episode_id) result)
     = 1%nat.
Proof.
  intros result. subst result. rewrite addToHistory_shape.
  set (older := firstn (MAX_HISTORY - 1) _).
  assert (forall h, In h older -> entry_id h <> episode_id /\ In h history)
    as Hold.
  { intros h Hin. apply In_firstn, filter_In in Hin.
    destruct Hin as [Hin Hne]. split; [| exact Hin].
    apply negb_true_iff, String.eqb_neq in Hne. exact Hne. }
  split.
  { cbn [List.length]. subst older. rewrite length_firstn.
    unfold MAX_HISTORY. lia. }
  split; [reflexivity |]. split; [exact Hold |].
  cbn [filter entry_id]. rewrite String.eqb_refl. cbn [List.length].
  f_equal.
  assert (filter (fun h => String.eqb (entry_id h) episode_id) older = [])
    as ->; [| reflexivity].
  clear -Hold. induction older as [| h rest IH]; [reflexivity |].
  cbn. destruct (Hold h (or_introl eq_refl)) as [Hne _].
  apply String.eqb_neq in Hne. rewrite Hne.
  apply IH. intros x Hx. apply Hold. right. exact Hx.
Qed.

(** A history without repeated episode ids stays without repeats, and while
    the list is not full no other episode is dropped: every stored entry of
    another episode is still listed. *)
Theorem addToHistory_keeps_entries (episode_id title : string)
    (percent_listened : option Q) (now : Z) (history : list HistoryEntry) :
  let result :=
    addToHistory episode_id title percent_listened now history in
  (NoDup (map entry_id history) -> NoDup (map entry_id result))
  /\ ((List.length history < MAX_HISTORY)%nat ->
      forall h, In h history -> entry_id h <> episode_id -> In h result).
Proof.
  intros result. subst result. rewrite addToHistory_shape.
  set (older := filter _ history).
  split.
  - intros Hnd. cbn [map entry_id]. constructor.
    + intros Hin. apply in_map_iff in Hin. destruct Hin as (h & Hid & Hin).
      apply In_firstn, filter_In in Hin. destruct Hin as [_ Hne].
      apply negb_true_iff, String.eqb_neq in Hne. contradiction.
    + rewrite <- firstn_map. apply NoDup_firstn.
      apply NoDup_map_filter. exact Hnd.
  - intros Hlen h Hin Hne. right.
    rewrite firstn_all2.
    + apply filter_In. split; [exact Hin |].
      apply negb_true_iff, String.eqb_neq. exact Hne.
    + pose proof (filter_length_le
                    (fun h => negb (String.eqb (entry_id h) episode_id))
                    history) as Hle.
      fold older in Hle. unfold MAX_HISTORY in *. lia.
Qed.

Lemma addToHistory_keeps_entries_witness :
  let stored := [mkHistoryEntry "a" "A" 10 50; mkHistoryEntry "b" "B" 5 100] in
  NoDup (map entry_id (addToHistory "b" "B" (Some 100) 20 stored))
  /\ In (mkHistoryEntry "a" "A" 10 50)
        (addToHistory "b" "B" (Some 100) 20 stored).
Proof.
  destruct (addToHistory_keeps_entries "b" "B" (Some 100) 20
              [mkHistoryEntry "a" "A" 10 50; mkHistoryEntry "b" "B" 5 100])
    as [H1 H2].
  split.
  - apply H1. cbn. repeat constructor; cbn; intuition discriminate.
  - apply H2.
    + cbn. unfold MAX_HISTORY. lia.
    + left. reflexivity.
    + discriminate.
Defined.

(** ** A playback session *)

(** A seek inside the current chunk keeps the state well formed, whatever
    position is asked for. *)
Lemma chunk_seek_Loaded (p : Player) (x : Q) (a : Audio) :
  Loaded p -> audio p = Some a ->
  Loaded (set_audio (Some (seekMedia a x)) p).
Proof.
  intros L Ha.
  destruct (Loaded_cursor_chunk p L)
    as (c & a0 & Hin & Hidx & Ha0 & Hd & Hr).
  rewrite Ha in Ha0. injection Ha0 as <-.
  apply (Loaded_move p c (seekMedia a x)); try reflexivity; try assumption.
  - cbn. congruence.
  - rewrite seekMedia_currentTime, seekMedia_duration.
    apply clamp_bounds. lra.
Qed.

(** The state after a chunk was loaded from the sequence. *)
Lemma loaded_chunk_frame (p : Player) (c : Chunk) :
  Loaded p -> In c (chunks p) ->
  let p' := set_audio (Some (loadMedia c))
              (set_currentChunkIndex (chunk_index c) p) in
  Loaded p' /\ chunks p' = chunks p
  /\ totalEpisodeDuration p' = totalEpisodeDuration p.
Proof.
  intros L Hin p'.
  destruct (move_to_chunk_Loaded p c L Hin) as (L' & _).
  split; [exact L' | split; reflexivity].
Qed.

Lemma handle_Loaded (e : Event) (p : Player) :
  Loaded p ->
  Loaded (handle e p) /\ chunks (handle e p) = chunks p
  /\ totalEpisodeDuration (handle e p) = totalEpisodeDuration p.
Proof.
  intros L.
  pose proof (loaded_ascending p L) as Hasc.
  destruct (currentEpisode p) as [ep |] eqn:Hep;
    [| exfalso; apply (loaded_episode p L); exact Hep].
  destruct (Loaded_nonempty p L) as (first & rest & Hcs).
  destruct e as [| | pct | value | digit | secs | | | position];
    cbn [handle].
  - split; [apply onTimeUpdate_Loaded; exact L |].
    destruct (onTimeUpdate_keeps p) as (_ & H1 & _ & H2). tauto.
  - rewrite (onEnded_stops p ep Hep). cbn [fst]. tauto.
  - unfold fsScrubberInput.
    destruct (isZero (totalEpisodeDuration p) || _); [cbn [fst]; tauto |].
    destruct (seekEpisodeTime_cursor p (pct / 100 * totalEpisodeDuration p)
                first rest L Hcs) as (H1 & _ & H2 & _).
    split; [apply seekEpisodeTime_Loaded; exact L | tauto].
  - unfold playerScrubberInput.
    destruct (audio p) as [a |] eqn:Ha; [| tauto].
    destruct (isZero (duration a)); [tauto |].
    split; [apply chunk_seek_Loaded; assumption | tauto].
  - unfold digitKey.
    destruct (audio p) as [a |] eqn:Ha; [| tauto].
    destruct (isZero (duration a)); [tauto |].
    split; [apply chunk_seek_Loaded; assumption | tauto].
  - destruct (skip_cursor p secs L) as (H1 & _ & H2 & _).
    split; [apply skip_Loaded; exact L | tauto].
  - destruct (successor p) as [next |] eqn:Hs.
    + destruct (nextChunk_advance p ep next L Hep Hs) as [Hin ->].
      apply loaded_chunk_frame; assumption.
    + rewrite (nextChunk_last p Hs). cbn [fst]. tauto.
  - unfold prevChunk.
    set (idx := findIndex (hasIndex (currentChunkIndex p)) (chunks p)).
    destruct (0 <? idx)%Z; [| cbn [fst]; tauto].
    destruct (at_index (chunks p) (idx - 1)) as [prev |] eqn:Hp;
      [| cbn [fst]; tauto].
    pose proof (at_index_In _ _ _ Hp) as Hin.
    rewrite (loadChunk_present p prev ep Hep Hasc Hin). cbn [fst].
    apply loaded_chunk_frame; assumption.
  - destruct (nth_error (chunks p) position) as [c |] eqn:Hn; [| tauto].
    pose proof (nth_error_In _ _ Hn) as Hin.
    unfold queueItemClick.
    rewrite (loadChunk_present p c ep Hep Hasc Hin). cbn [fst].
    apply loaded_chunk_frame; assumption.
Qed.

(** Through any sequence of progress ticks, chunk ends (whose handler stops
    before it would advance), scrubber inputs, digit keys, skips, next and
    previous chunk requests and queue clicks, a loaded episode whose chunk
    durations are all known keeps its chunk list and total; the cursor
    always names a chunk of the list with an offset inside that chunk, and
    the elapsed time a progress tick then stores in [currentEpisodeTime]
    lies between 0 and the total. *)
Theorem session_keeps_cursor_valid (events : list Event) (p : Player) :
  Loaded p -> knownDurations (chunks p) ->
  let q := run events p in
  Loaded q
  /\ chunks q = chunks p
  /\ totalEpisodeDuration q = totalEpisodeDuration p
  /\ (exists c,
        In c (chunks p) /\ chunk_index c = currentChunkIndex q
        /\ 0 <= cursorOffset q <= chunkDur c)
  /\ 0 <= currentEpisodeTime (onTimeUpdate q) <= totalEpisodeDuration p.
Proof.
  intros L Hk q.
  assert (Loaded q /\ chunks q = chunks p
          /\ totalEpisodeDuration q = totalEpisodeDuration p)
    as (Lq & Hcs & Htot).
  { subst q. unfold run. clear Hk. revert p L.
    induction events as [| e rest IH]; intros p L; [cbn; tauto |].
    cbn [fold_left].
    destruct (handle_Loaded e p L) as (L1 & H1 & H2).
    destruct (IH (handle e p) L1) as (L2 & H3 & H4).
    split; [exact L2 |]. split; congruence. }
  split; [exact Lq |]. split; [exact Hcs |]. split; [exact Htot |].
  split.
  - destruct (Loaded_cursor_chunk q Lq)
      as (c & a & Hin & Hidx & Ha & Hd & Hr).
    exists c. rewrite <- Hcs. split; [exact Hin |]. split; [exact Hidx |].
    unfold cursorOffset. rewrite Ha. lra.
  - rewrite <- Hcs in Hk.
    destruct (onTimeUpdate_bounds q Lq Hk) as (_ & Hb).
    destruct (onTimeUpdate_keeps q) as (_ & _ & _ & Ht).
    rewrite Ht, Htot in Hb. exact Hb.
Qed.

Lemma session_keeps_cursor_valid_witness :
  let q := run [FsScrubber 100; Skip 10; Ended; DigitKey 7; PrevChunk;
                QueueItem 2; NextChunk; PlayerScrubber 250; TimeUpdate]
               scenarioAt95 in
  0 <= currentEpisodeTime (onTimeUpdate q)
  <= totalEpisodeDuration scenarioAt95.
Proof.
  destruct (session_keeps_cursor_valid
              [FsScrubber 100; Skip 10; Ended; DigitKey 7; PrevChunk;
               QueueItem 2; NextChunk; PlayerScrubber 250; TimeUpdate]
              scenarioAt95 scenarioAt95_Loaded scenarioChunks_known)
    as (_ & _ & _ & _ & H).
  exact H.
Defined.
